(** * WikiContributionReport: the attribution pipeline of [wiki.py]

    A shallow embedding of the three stages of [wiki.py]:
    - the revision loop of [get_revision_data] (the Diff Processor),
    - [aggregate_user_stats] (the Contribution Aggregator),
    - [create_html_report] (the Report Renderer),
    followed by the properties the specification states about them.

    Modelling conventions.
    - Python [int] is unbounded: sizes, changes and counters are [Z].
    - Python [str] is modelled by [string], read as the UTF-8 bytes of the
      text.  [html.escape] only touches ASCII characters, and no byte of a
      multi-byte UTF-8 sequence is ASCII, so the byte view is faithful to
      the document that is written with [encoding="utf-8"].
    - A Python [float] is modelled by the rational number it denotes:
      [binary64] rounds a rational to the nearest binary64 number, ties to
      even, which is what the division of two [int]s and the product of two
      floats return.  Infinities and NaN have no representation: the
      aggregator forms none (its quotients are at most 1).
    - A [dict] whose iteration order matters (the [defaultdict] of
      [aggregate_user_stats]) is an association list in insertion order.
    - An exception is modelled by [None] in the [option] monad; the only
      ones the aggregator could raise are the [ZeroDivisionError] and the
      [OverflowError] of a division.
    - Console output ([print]) and the network client are not modelled. *)

From Stdlib Require Import List ZArith QArith Qround Qabs Qpower.
From Stdlib Require Import String Ascii Bool Lia.
From Stdlib Require SpecFloat.
From Stdlib Require Import DecimalString DecimalPos DecimalN Lqa.
From Stdlib Require Import Sorting.Sorted Sorting.Permutation.
Import ListNotations.

Local Open Scope string_scope.
Local Open Scope Z_scope.
Local Open Scope list_scope.

(** ** 1. Data model *)

(** A revision as yielded by [page.revisions(dir='newer', prop='user|size')]:
    a dict in which either key may be absent. *)
Record revision := mkRevision {
  rev_user : option string;
  rev_size : option Z
}.

(** [d.get(key, default)] on an optional field. *)
Definition dict_get {A : Type} (field : option A) (default : A) : A :=
  match field with
  | Some v => v
  | None => default
  end.

(** An element of [contribution_data]: [{'user': ..., 'change': ...}]. *)
Record contribution := mkContribution {
  user : string;
  change : Z
}.

(** ** 2. Diff Processor: the loop of [get_revision_data] *)

Module DiffProcessor.

(** The loop state: [(contribution_data, previous_size)]. *)
Definition loop_state : Type := list contribution * Z.

(** One iteration of [for rev in page.revisions(...)]. *)
Definition loop_body (st : loop_state) (rev : revision) : loop_state :=
  let '(contribution_data, previous_size) := st in
  let current_size := dict_get (rev_size rev) 0 in
  let size_difference := current_size - previous_size in
  (contribution_data ++
     [ {| user := dict_get (rev_user rev) "Unknown";
          change := size_difference |} ],
   current_size).

(** [contribution_data = []; previous_size = 0; for rev in ...: ...] *)
Definition revision_loop (revs : list revision) : loop_state :=
  fold_left loop_body revs ([], 0).

Definition contribution_data (revs : list revision) : list contribution :=
  fst (revision_loop revs).

(** The page object of the wiki client, as far as the function reads it. *)
Record page := mkPage {
  page_exists : bool;
  page_name : string;
  page_revisions : list revision
}.

(** [get_revision_data], after [site.pages[page_title]] has been fetched:
    [(None, None)] when the page does not exist, otherwise
    [(contribution_data, page.name)]. *)
Definition get_revision_data (p : page)
  : option (list contribution) * option string :=
  if negb (page_exists p) then (None, None)
  else (Some (contribution_data (page_revisions p)), Some (page_name p)).

(** What the specification calls the size and the author of a revision. *)
Definition size_of (rev : revision) : Z := dict_get (rev_size rev) 0.
Definition author_of (rev : revision) : string :=
  dict_get (rev_user rev) "Unknown".

(** The sizes that precede each revision: 0, then the sizes in order. *)
Definition previous_sizes (revs : list revision) : list Z :=
  0 :: map size_of revs.

(** The delta record of a revision, given the size before it. *)
Definition delta_record (pr : Z * revision) : contribution :=
  {| user := author_of (snd pr); change := size_of (snd pr) - fst pr |}.

(** Size of the last revision, 0 for the empty history. *)
Definition final_size (revs : list revision) : Z :=
  last (map size_of revs) 0.

(** The records paired with the sizes preceding them, from any start:
    the recursive reading of the loop. *)
Fixpoint deltas_from (prev : Z) (revs : list revision) : list contribution :=
  match revs with
  | [] => []
  | rev :: rest => delta_record (prev, rev) :: deltas_from (size_of rev) rest
  end.

End DiffProcessor.

(** Sum of a list of integers. *)
Definition sumZ (l : list Z) : Z := fold_right Z.add 0 l.

(** ** 3. Contribution Aggregator: [aggregate_user_stats] *)

(** Exceptions: [None] stands for a raised exception. *)
Definition bind {A B : Type} (c : option A) (k : A -> option B) : option B :=
  match c with
  | Some a => k a
  | None => None
  end.

Notation "x <- c ;; k" := (bind c (fun x => k))
  (at level 61, c at next level, right associativity).

(** Rounding to the nearest integer, ties to even. *)
Definition round_half_even (x : Q) : Z :=
  let f := Qfloor x in
  match Qcompare (x - inject_Z f) (1 # 2) with
  | Lt => f
  | Gt => f + 1
  | Eq => if Z.even f then f else f + 1
  end.

(** The binary exponent of a positive rational: the integer part of its
    logarithm in base 2. *)
Definition ilog2 (x : Q) : Z :=
  let e0 := Z.log2 (Qnum x) - Z.log2 (Zpos (Qden x)) in
  if Qle_bool (2 ^ e0) x then e0 else e0 - 1.

(** The binary64 number nearest to a rational, ties to even: 53 significant
    bits, with the unit in the last place never below [2 ^ -1074].  The
    upper end of the exponent range is checked apart, by
    [finite_binary64]. *)
Definition binary64 (x : Q) : Q :=
  let e := Z.max (ilog2 (Qabs x)) (-1022) in
  let ulp := (2 ^ (e - 52))%Q in
  (inject_Z (round_half_even (x / ulp)) * ulp)%Q.

(** The magnitudes of the finite binary64 numbers are below [2 ^ 1024]. *)
Definition finite_binary64 (x : Q) : bool :=
  negb (Qle_bool (2 ^ 1024) (Qabs x)).

(** [a / b] on two [int]s: the correctly rounded quotient; a zero divisor
    raises [ZeroDivisionError], a quotient beyond the floats raises
    [OverflowError]. *)
Definition truediv (a b : Z) : option Q :=
  if b =? 0 then None
  else
    let q := binary64 (inject_Z a / inject_Z b) in
    if finite_binary64 q then Some q else None.

(** [x * y] on two floats (an [int] operand is converted first, exactly
    for 100).  The products formed here are at most 100: the upper end of
    the exponent range plays no part. *)
Definition float_mul (x y : Q) : Q := binary64 (x * y).

(** [x < y] on percentages. *)
Definition float_lt (x y : Q) : bool := negb (Qle_bool y x).

(** [sum(iterable)]: left to right from 0. *)
Definition py_sum (l : list Z) : Z := fold_left Z.add l 0.

(** [list.sort(key=..., reverse=...)].  The sort is stable and compares
    keys with [<] only; with [reverse=True] elements with equal keys still
    keep their original order: the list is reversed, sorted stably in
    ascending order, and reversed again.  The stable ascending sort is
    insertion sort. *)
Fixpoint insert_sorted {A K : Type} (lt : K -> K -> bool) (key : A -> K)
  (x : A) (l : list A) : list A :=
  match l with
  | [] => [x]
  | y :: rest =>
      if lt (key y) (key x) then y :: insert_sorted lt key x rest
      else x :: y :: rest
  end.

Definition stable_sort {A K : Type} (lt : K -> K -> bool) (key : A -> K)
  (l : list A) : list A :=
  fold_right (insert_sorted lt key) [] l.

Definition list_sort {A K : Type} (lt : K -> K -> bool) (key : A -> K)
  (reverse : bool) (l : list A) : list A :=
  if reverse then rev (stable_sort lt key (rev l)) else stable_sort lt key l.

Module Aggregator.

(** The inner dict [{'edits': 0, 'text_added': 0, 'text_removed': 0}]. *)
Record stats := mkStats {
  edits : Z;
  text_added : Z;
  text_removed : Z
}.

(** The default factory of the [defaultdict]. *)
Definition fresh_stats : stats :=
  {| edits := 0; text_added := 0; text_removed := 0 |}.

(** The [defaultdict], in insertion order. *)
Definition stats_dict : Type := list (string * stats).

Fixpoint contains (u : string) (m : stats_dict) : bool :=
  match m with
  | [] => false
  | (k, _) :: rest => if String.eqb k u then true else contains u rest
  end.

(** [user_stats[user]] as a lookup on the [defaultdict]: a missing key is
    first inserted, at the end, with a fresh record. *)
Definition getitem_default (u : string) (m : stats_dict) : stats_dict :=
  if contains u m then m else m ++ [(u, fresh_stats)].

(** In-place update of the record stored under [u]. *)
Fixpoint update_stats (u : string) (f : stats -> stats) (m : stats_dict)
  : stats_dict :=
  match m with
  | [] => []
  | (k, s) :: rest =>
      if String.eqb k u then (k, f s) :: rest
      else (k, s) :: update_stats u f rest
  end.

(** [user_stats[user][field] += n] for the three fields. *)
Definition incr_edits (n : Z) (s : stats) : stats :=
  {| edits := edits s + n;
     text_added := text_added s;
     text_removed := text_removed s |}.

Definition incr_text_added (n : Z) (s : stats) : stats :=
  {| edits := edits s;
     text_added := text_added s + n;
     text_removed := text_removed s |}.

Definition incr_text_removed (n : Z) (s : stats) : stats :=
  {| edits := edits s;
     text_added := text_added s;
     text_removed := text_removed s + n |}.

(** One iteration of [for rev in contribution_data]. *)
Definition loop_body (user_stats : stats_dict) (rev : contribution)
  : stats_dict :=
  let user := user rev in
  let change := change rev in
  let user_stats :=
    update_stats user (incr_edits 1) (getitem_default user user_stats) in
  if change >? 0 then
    update_stats user (incr_text_added change)
      (getitem_default user user_stats)
  else
    update_stats user (incr_text_removed (Z.abs change))
      (getitem_default user user_stats).

(** The dict after the first loop. *)
Definition accumulate (contribution_data : list contribution) : stats_dict :=
  fold_left loop_body contribution_data [].

(** [sum(stats['text_added'] for stats in user_stats.values())] *)
Definition total_text_added (user_stats : stats_dict) : Z :=
  py_sum (map (fun kv => text_added (snd kv)) user_stats).

(** An element of [processed_stats]:
    [{'user': user, 'percentage': percentage, **stats}]. *)
Record author_row := mkRow {
  row_user : string;
  percentage : Q;
  row_stats : stats
}.

(** [(stats['text_added'] / total_text_added) * 100
     if total_text_added > 0 else 0] *)
Definition percentage_of (s : stats) (total_text_added : Z) : option Q :=
  if total_text_added >? 0 then
    q <- truediv (text_added s) total_text_added ;;
    Some (float_mul q (inject_Z 100))
  else Some (inject_Z 0).

(** [for user, stats in user_stats.items(): processed_stats.append(...)] *)
Fixpoint process_items (items : stats_dict) (total_text_added : Z)
  (processed_stats : list author_row) : option (list author_row) :=
  match items with
  | [] => Some processed_stats
  | (u, s) :: rest =>
      pct <- percentage_of s total_text_added ;;
      process_items rest total_text_added
        (processed_stats ++
           [ {| row_user := u; percentage := pct; row_stats := s |} ])
  end.

Definition aggregate_user_stats (contribution_data : list contribution)
  : option (list author_row) :=
  let user_stats := accumulate contribution_data in
  let total_text_added := total_text_added user_stats in
  if total_text_added =? 0 then Some []
  else
    processed_stats <- process_items user_stats total_text_added [] ;;
    Some (list_sort float_lt percentage true processed_stats).

(** The record of an author as the [defaultdict] would return it. *)
Fixpoint lookup (u : string) (m : stats_dict) : option stats :=
  match m with
  | [] => None
  | (k, s) :: rest => if String.eqb k u then Some s else lookup u rest
  end.

Definition stats_of (u : string) (m : stats_dict) : stats :=
  dict_get (lookup u m) fresh_stats.

(** What one delta record does to the record of its author. *)
Definition apply_change (c : Z) (s : stats) : stats :=
  {| edits := edits s + 1;
     text_added := if c >? 0 then text_added s + c else text_added s;
     text_removed :=
       if c >? 0 then text_removed s else text_removed s + Z.abs c |}.

End Aggregator.

(** Sum of a list of rationals. *)
Definition sumQ (l : list Q) : Q := fold_right Qplus 0%Q l.

(** Position of the first occurrence of [u] ([length l] when absent). *)
Fixpoint index_of (u : string) (l : list string) : nat :=
  match l with
  | [] => O
  | v :: rest => if String.eqb v u then O else S (index_of u rest)
  end.

(** ** 4. Report Renderer: [create_html_report] *)

(** The double quote character (code 34) and the one-character string. *)
Definition quote_char : ascii :=
  Ascii false true false false false true false false.

Definition dq : string := String quote_char EmptyString.

(** [s.replace(c, rep)] for a one-character pattern [c]. *)
Fixpoint replace_char (c : ascii) (rep : string) (s : string) : string :=
  match s with
  | EmptyString => EmptyString
  | String a rest =>
      if Ascii.eqb a c then (rep ++ replace_char c rep rest)%string
      else String a (replace_char c rep rest)
  end.

(** [html.escape(s)] of the Python standard library, with its default
    [quote=True]: five replacements in sequence, the ampersand first. *)
Definition html_escape (s : string) : string :=
  let s := replace_char "&" "&amp;" s in
  let s := replace_char "<" "&lt;" s in
  let s := replace_char ">" "&gt;" s in
  let s := replace_char quote_char "&quot;" s in
  let s := replace_char "'" "&#x27;" s in
  s.

(** Decimal digits of a natural number, no leading zeros ("0" for 0). *)
Definition decimal (n : N) : string :=
  NilZero.string_of_uint (N.to_uint n).

(** Grouping separators: a comma before every group of three digits. *)
Fixpoint add_commas (digits : string) : string :=
  match digits with
  | EmptyString => EmptyString
  | String c rest =>
      let n := String.length rest in
      if (negb (n =? 0) && (n mod 3 =? 0))%nat
      then String c (String "," (add_commas rest))
      else String c (add_commas rest)
  end.

(** [f"{n:,}"] for an [int]. *)
Definition format_grouped (n : Z) : string :=
  let sign := if n <? 0 then "-" else EmptyString in
  (sign ++ add_commas (decimal (Z.abs_N n)))%string.

(** Two decimal digits of a number below 100. *)
Definition two_digits (m : Z) : string :=
  (decimal (Z.to_N (m / 10)) ++ decimal (Z.to_N (m mod 10)))%string.

(** [f"{x:.2f}"]: the hundredths nearest to the number the float denotes,
    ties to even, printed with exactly two digits after the point. *)
Definition format_2f (x : Q) : string :=
  let n := round_half_even (Qabs x * inject_Z 100) in
  let sign := if float_lt x 0 then "-" else EmptyString in
  let whole := decimal (Z.to_N (n / 100)) in
  (sign ++ whole ++ "." ++ two_digits (n mod 100))%string.

Module Renderer.
Import Aggregator.

(** The literal text of the row template, between its placeholders. *)
Definition row_part_0 : string :=
  String.concat EmptyString
  [ "
        <tr>
            <td><a href=";
    dq;
    "https://en.wikipedia.org/wiki/User:" ].

Definition row_part_1 : string :=
  String.concat EmptyString
  [ dq;
    " target=";
    dq;
    "_blank";
    dq;
    ">" ].

Definition row_part_2 : string :=
  String.concat EmptyString
  [ "</a></td>
            <td>
                <div class=";
    dq;
    "progress-bar-container";
    dq;
    ">
                    <div class=";
    dq;
    "progress-bar";
    dq;
    " style=";
    dq;
    "width: " ].

Definition row_part_3 : string :=
  String.concat EmptyString
  [ "%;";
    dq;
    "></div>
                </div>
            </td>
            <td class=";
    dq;
    "percentage-label";
    dq;
    ">" ].

Definition row_part_4 : string :=
  String.concat EmptyString
  [ "%</td>
            <td class=";
    dq;
    "number";
    dq;
    ">" ].

Definition row_part_5 : string :=
  String.concat EmptyString
  [ "</td>
            <td class=";
    dq;
    "number added";
    dq;
    ">" ].

Definition row_part_6 : string :=
  String.concat EmptyString
  [ "</td>
            <td class=";
    dq;
    "number removed";
    dq;
    ">" ].

Definition row_part_7 : string :=
  "</td>
        </tr>
        ".

(** The body of [for user_data in stats]: the text appended to
    [table_rows]. *)
Definition table_row (user_data : author_row) : string :=
  let user_name_safe := html_escape (row_user user_data) in
  let edits := format_grouped (edits (row_stats user_data)) in
  let text_added :=
    ("+" ++ format_grouped (text_added (row_stats user_data)))%string in
  let text_removed :=
    ("-" ++ format_grouped (text_removed (row_stats user_data)))%string in
  let percentage := percentage user_data in
  String.concat EmptyString
    [ row_part_0; user_name_safe;
      row_part_1; user_name_safe;
      row_part_2; format_2f percentage;
      row_part_3; format_2f percentage;
      row_part_4; edits;
      row_part_5; text_added;
      row_part_6; text_removed;
      row_part_7 ].

(** [table_rows = ""; for user_data in stats: table_rows += ...] *)
Definition table_rows (stats : list author_row) : string :=
  fold_left (fun acc user_data => (acc ++ table_row user_data)%string)
    stats EmptyString.

(** The literal text of the page template, between its placeholders. *)
Definition page_part_0 : string :=
  String.concat EmptyString
  [ "
<!DOCTYPE html>
<html lang=";
    dq;
    "en";
    dq;
    ">
<head>
    <meta charset=";
    dq;
    "UTF-8";
    dq;
    ">
    <meta name=";
    dq;
    "viewport";
    dq;
    " content=";
    dq;
    "width=device-width, initial-scale=1.0";
    dq;
    ">
    <title>Wikipedia Contribution Report: " ].

Definition page_part_1 : string :=
  String.concat EmptyString
  [ "</title>
    <style>
        body {
            font-family: -apple-system, BlinkMacSystemFont, ";
    dq;
    "Segoe UI";
    dq;
    ", Roboto, Helvetica, Arial, sans-serif;
            background-color: #f8f9fa;
            color: #212529;
            margin: 0;
            padding: 20px;
        }
        .container {
            max-width: 960px;
            margin: auto;
            background-color: #ffffff;
            border-radius: 8px;
            box-shadow: 0 4px 8px rgba(0,0,0,0.05);
            padding: 30px;
        }
        h1 {
            color: #343a40;
            border-bottom: 2px solid #dee2e6;
            padding-bottom: 10px;
            margin-top: 0;
        }
        p.summary {
            font-size: 1.1em;
            color: #6c757d;
        }
        table {
            width: 100%;
            border-collapse: collapse;
            margin-top: 20px;
        }
        th, td {
            padding: 12px 15px;
            text-align: left;
            border-bottom: 1px solid #dee2e6;
        }
        thead th {
            background-color: #e9ecef;
            font-weight: 600;
            color: #495057;
        }
        tbody tr:nth-of-type(even) {
            background-color: #f8f9fa;
        }
        tbody tr:hover {
            background-color: #e9ecef;
        }
        a {
            color: #007bff;
            text-decoration: none;
        }
        a:hover {
            text-decoration: underline;
        }
        .progress-bar-container {
            width: 100%;
            background-color: #e9ecef;
            border-radius: 5px;
            height: 20px;
            overflow: hidden;
        }
        .progress-bar {
            background: linear-gradient(90deg, #28a745, #218838);
            height: 100%;
            text-align: right;
            color: white;
            line-height: 20px;
            border-radius: 5px;
            transition: width 0.5s ease-in-out;
        }
        .percentage-label {
            font-weight: bold;
            min-width: 70px;
            text-align: right;
        }
        .number {
            text-align: right;
            font-family: ";
    dq;
    "Courier New";
    dq;
    ", Courier, monospace;
        }
        .added { color: #28a745; }
        .removed { color: #dc3545; }
    </style>
</head>
<body>
    <div class=";
    dq;
    "container";
    dq;
    ">
        <h1>Contribution Report</h1>
        <p class=";
    dq;
    "summary";
    dq;
    ">Analysis of user contributions for the Wikipedia article: <strong>" ].

Definition page_part_2 : string :=
  String.concat EmptyString
  [ "</strong></p>
        
        <table>
            <thead>
                <tr>
                    <th>User</th>
                    <th style=";
    dq;
    "width: 30%;";
    dq;
    ">Contribution (% of Text Added)</th>
                    <th></th>
                    <th>Edits</th>
                    <th>Bytes Added</th>
                    <th>Bytes Removed</th>
                </tr>
            </thead>
            <tbody>
                " ].

Definition page_part_3 : string :=
  "
            </tbody>
        </table>
    </div>
</body>
</html>
    ".

(** The value of [html_template]. *)
Definition html_template (stats : list author_row) (page_title : string)
  : string :=
  String.concat EmptyString
    [ page_part_0; html_escape page_title;
      page_part_1; html_escape page_title;
      page_part_2; table_rows stats;
      page_part_3 ].

(** The files of the working directory, by name. *)
Definition filesystem : Type := string -> option string.

Definition filename : string := "contribution_report.html".

(** [open(filename, "w").write(text)] *)
Definition write_file (fs : filesystem) (name text : string) : filesystem :=
  fun n => if String.eqb n name then Some text else fs n.

Definition create_html_report (stats : list author_row) (page_title : string)
  (fs : filesystem) : filesystem :=
  write_file fs filename (html_template stats page_title).

End Renderer.

(** ** 5. The script: [__main__] *)

(** [if revision_history:] holds for a non-empty list only; an exception of
    the aggregator would end the script before any file is written. *)
Definition main (p : DiffProcessor.page) (fs : Renderer.filesystem)
  : option Renderer.filesystem :=
  match DiffProcessor.get_revision_data p with
  | (Some (rev :: history), Some page_title) =>
      user_statistics <- Aggregator.aggregate_user_stats (rev :: history) ;;
      Some (Renderer.create_html_report user_statistics page_title fs)
  | _ => Some fs
  end.

(** ** 6. Vocabulary of the statements *)



(** [prefix p s]: [s] starts with [p]. *)
Fixpoint starts_with (p s : string) : bool :=
  match p, s with
  | EmptyString, _ => true
  | String a p', String b s' => Ascii.eqb a b && starts_with p' s'
  | String _ _, EmptyString => false
  end.

(** [p] occurs somewhere in [s]. *)
Fixpoint occurs_in (p s : string) : bool :=
  starts_with p s
  || match s with
     | EmptyString => false
     | String _ s' => occurs_in p s'
     end.




(** Sum of one field over all records of the dict. *)
Definition sum_field (f : Aggregator.stats -> Z) (m : Aggregator.stats_dict)
  : Z :=
  sumZ (map (fun kv => f (snd kv)) m).

(** Sum of one field over the returned rows. *)
Definition sum_rows (f : Aggregator.stats -> Z)
  (rows : list Aggregator.author_row) : Z :=
  sumZ (map (fun r => f (Aggregator.row_stats r)) rows).

(** The records of one author. *)
Definition records_of (u : string) (ds : list contribution)
  : list contribution :=
  filter (fun d => String.eqb (user d) u) ds.

(** The part of a change that counts as added, and as removed. *)
Definition added_part (c : Z) : Z := if c >? 0 then c else 0.
Definition removed_part (c : Z) : Z := if c >? 0 then 0 else Z.abs c.

(** [a] occurs at some position of [l] and [b] at a later one. *)
Definition appears_before {A : Type} (l : list A) (a b : A) : Prop :=
  exists l1 l2 l3, l = l1 ++ a :: l2 ++ b :: l3.

(** Membership of a name in a list of names. *)
Definition mem (u : string) (l : list string) : bool :=
  existsb (String.eqb u) l.

(** The percentage of a record, as a total function of the record and of
    the total. *)
Definition percentage_value (s : Aggregator.stats) (total : Z) : Q :=
  if total >? 0
  then float_mul
         (binary64 (inject_Z (Aggregator.text_added s) / inject_Z total))
         (inject_Z 100)
  else inject_Z 0.

(** The share of a record in the total, as an exact rational. *)
Definition exact_percentage (s : Aggregator.stats) (total : Z) : Q :=
  (inject_Z (Aggregator.text_added s) / inject_Z total * 100)%Q.

(** A number that is a whole count of its own units in the last place. *)
Definition representable (b : Q) : Prop :=
  exists m : Z,
    (b == inject_Z m * 2 ^ (Z.max (ilog2 b) (-1022) - 52))%Q.

(** The rational a float of the Standard Library's IEEE 754 model denotes. *)
Definition sf_value (f : SpecFloat.spec_float) : option Q :=
  match f with
  | SpecFloat.S754_zero _ => Some 0%Q
  | SpecFloat.S754_finite s m e =>
      Some ((if s then - 1 else 1) * inject_Z (Zpos m) * 2 ^ e)%Q
  | _ => None
  end.

(** An [int] as a float of that model (not normalised). *)
Definition sf_of_pos (p : positive) : SpecFloat.spec_float :=
  SpecFloat.S754_finite false p 0.

(** [a / b * 100] in that model. *)
Definition sf_percentage (a b : positive) : SpecFloat.spec_float :=
  SpecFloat.SFmul 53 1024
    (SpecFloat.SFdiv 53 1024 (sf_of_pos a) (sf_of_pos b))
    (sf_of_pos 100).

(** The row built from one item of the dict. *)
Definition make_row (total : Z) (kv : string * Aggregator.stats)
  : Aggregator.author_row :=
  {| Aggregator.row_user := fst kv;
     Aggregator.percentage := percentage_value (snd kv) total;
     Aggregator.row_stats := snd kv |}.

(** The scenario of the specification. *)
Definition scenario_revisions : list revision :=
  [ mkRevision (Some "A") (Some 100);
    mkRevision (Some "B") (Some 150);
    mkRevision (Some "A") (Some 120) ].

(** A history without growth: a page created blank and edited blank. *)
Definition blank_history : list revision :=
  [ mkRevision (Some "A") (Some 0); mkRevision (Some "B") (Some 0) ].

(** Records without added text: a removal and a null edit. *)
Definition shrinking_records : list contribution :=
  [ mkContribution "A" (-30); mkContribution "B" 0 ].

(** Records with a tie: [B] and [A] both add 50, [B] first. *)
Definition tied_records : list contribution :=
  [ mkContribution "B" 50; mkContribution "C" 100; mkContribution "A" 50 ].

(** What [html.escape] does to one character. *)
Definition escape_char (a : ascii) : string :=
  if Ascii.eqb a "&" then "&amp;"
  else if Ascii.eqb a "<" then "&lt;"
  else if Ascii.eqb a ">" then "&gt;"
  else if Ascii.eqb a quote_char then "&quot;"
  else if Ascii.eqb a "'" then "&#x27;"
  else String a EmptyString.

(** Reading a decimal numeral back: [whole.frac], with an optional sign. *)
Definition digits_value (s : string) : option N :=
  option_map N.of_uint (NilEmpty.uint_of_string s).

Fixpoint split_point (s : string) : option (string * string) :=
  match s with
  | EmptyString => None
  | String c rest =>
      if Ascii.eqb c "." then Some (EmptyString, rest)
      else match split_point rest with
           | Some (whole, frac) => Some (String c whole, frac)
           | None => None
           end
  end.

Definition unsigned_value (s : string) : option Q :=
  match split_point s with
  | Some (whole, frac) =>
      match digits_value whole, digits_value frac with
      | Some w, Some f =>
          Some (inject_Z (Z.of_N w)
                + inject_Z (Z.of_N f)
                  / inject_Z (10 ^ Z.of_nat (String.length frac)))%Q
      | _, _ => None
      end
  | None => None
  end.

Definition decimal_value (s : string) : option Q :=
  match s with
  | EmptyString => None
  | String c rest =>
      if Ascii.eqb c "-" then option_map Qopp (unsigned_value rest)
      else unsigned_value s
  end.

(** [s] ends with [suffix]. *)
Fixpoint ends_with (suffix s : string) : bool :=
  String.eqb s suffix
  || match s with
     | EmptyString => false
     | String _ s' => ends_with suffix s'
     end.

(** The row of author A in the scenario of the specification. *)
Definition scenario_row_A : Aggregator.author_row :=
  make_row 150 ("A", Aggregator.mkStats 2 100 30).

(** [a] may stand before [b] in a list that ascends by key. *)
Definition key_le {A K : Type} (lt : K -> K -> bool) (key : A -> K)
  (a b : A) : Prop :=
  lt (key b) (key a) = false.

(** Insert-or-update of the record of one author: what one access to the
    [defaultdict] followed by an update of the record amounts to. *)
Fixpoint upsert (u : string) (f : Aggregator.stats -> Aggregator.stats)
  (m : Aggregator.stats_dict) : Aggregator.stats_dict :=
  match m with
  | [] => [(u, f Aggregator.fresh_stats)]
  | (k, s) :: rest =>
      if String.eqb k u then (k, f s) :: rest
      else (k, s) :: upsert u f rest
  end.

(** A record as the loop leaves it: at least one edit, no negative
    counter. *)
Definition sound_stats (s : Aggregator.stats) : Prop :=
  1 <= Aggregator.edits s
  /\ 0 <= Aggregator.text_added s
  /\ 0 <= Aggregator.text_removed s.

(** The sizes rebuilt from the changes: running sums from a start size. *)
Fixpoint running_sizes (prev : Z) (ds : list contribution) : list Z :=
  match ds with
  | [] => []
  | d :: rest => (prev + change d) :: running_sizes (prev + change d) rest
  end.

(** Records in another order: the same authors, two with equal shares. *)
Definition tied_records_reordered : list contribution :=
  [ mkContribution "A" 50; mkContribution "B" 50; mkContribution "C" 100 ].

(** The five characters [html.escape] replaces. *)
Definition is_special (a : ascii) : bool :=
  existsb (Ascii.eqb a) ["&"; "<"; ">"; quote_char; "'"]%char.

Fixpoint has_special (s : string) : bool :=
  match s with
  | EmptyString => false
  | String a rest => is_special a || has_special rest
  end.

(** Reading escaped text back: each of the five character references
    stands for its character; [skip] counts the characters of a reference
    still to be passed over. *)
Fixpoint unescape_from (skip : nat) (s : string) : string :=
  match s with
  | EmptyString => EmptyString
  | String a rest =>
      match skip with
      | S k => unescape_from k rest
      | O =>
          if Ascii.eqb a "&" then
            if starts_with "amp;" rest
            then String "&" (unescape_from 4 rest)
            else if starts_with "lt;" rest
            then String "<" (unescape_from 3 rest)
            else if starts_with "gt;" rest
            then String ">" (unescape_from 3 rest)
            else if starts_with "quot;" rest
            then String quote_char (unescape_from 5 rest)
            else if starts_with "#x27;" rest
            then String "'" (unescape_from 5 rest)
            else String a (unescape_from 0 rest)
          else String a (unescape_from 0 rest)
      end
  end.

Definition unescape (s : string) : string := unescape_from 0 s.

(** Decimal digits. *)
Definition is_digit (a : ascii) : bool :=
  existsb (Ascii.eqb a)
    ["0"; "1"; "2"; "3"; "4"; "5"; "6"; "7"; "8"; "9"]%char.

Fixpoint all_digits (s : string) : bool :=
  match s with
  | EmptyString => true
  | String a rest => is_digit a && all_digits rest
  end.

(** Reading a grouped numeral back: the separators are dropped. *)
Fixpoint strip_commas (s : string) : string :=
  match s with
  | EmptyString => EmptyString
  | String a rest =>
      if Ascii.eqb a "," then strip_commas rest
      else String a (strip_commas rest)
  end.

Definition grouped_value (s : string) : option Z :=
  match s with
  | EmptyString => None
  | String c rest =>
      if Ascii.eqb c "-"
      then option_map (fun n => - Z.of_N n) (digits_value (strip_commas rest))
      else option_map Z.of_N (digits_value (strip_commas s))
  end.

(** The groups of a numeral: the texts between its separators. *)
Fixpoint groups (s : string) : list string :=
  match s with
  | EmptyString => [EmptyString]
  | String a rest =>
      if Ascii.eqb a "," then EmptyString :: groups rest
      else match groups rest with
           | g :: gs => String a g :: gs
           | [] => [String a EmptyString]
           end
  end.

(** Pages for the examples: one that does not exist, one whose history
    is the scenario of the specification, one that never grew. *)
Definition missing_page : DiffProcessor.page :=
  DiffProcessor.mkPage false "Missing" [].

Definition scenario_page : DiffProcessor.page :=
  DiffProcessor.mkPage true "Scenario" scenario_revisions.

Definition blank_page : DiffProcessor.page :=
  DiffProcessor.mkPage true "Blank" blank_history.

(** A working directory without files. *)
Definition no_files : Renderer.filesystem := fun _ => None.

(** Pairs of added bytes and total on which the rounding is compared with
    the Standard Library's model. *)
Definition sample_shares : list (positive * positive) :=
  [ (100, 150); (50, 150); (23, 160); (137, 160); (1, 3); (1, 7);
    (2 ^ 53, 2 ^ 54 + 1); (2 ^ 53 + 1, 2 ^ 54 + 1);
    (1, 10 ^ 30); (10 ^ 30 - 1, 10 ^ 30) ]%positive.

(** Two authors whose shares differ by less than the floats resolve. *)
Definition close_records : list contribution :=
  [ mkContribution "X" (2 ^ 53); mkContribution "Y" (2 ^ 53 + 1) ].

(** * Properties *)

(** ** Properties of the Diff Processor *)

Section DiffProcessorFacts.
Import DiffProcessor.

Lemma sumZ_cons (x : Z) (l : list Z) : sumZ (x :: l) = x + sumZ l.
Proof. reflexivity. Qed.

Lemma sumZ_app (l1 l2 : list Z) : sumZ (l1 ++ l2) = sumZ l1 + sumZ l2.
Proof. induction l1 as [|x l1 IH]; simpl; lia. Qed.

Lemma last_cons (x d : Z) (l : list Z) : last (x :: l) d = last l x.
Proof.
  revert x d. induction l as [|y l IH]; intros x d; [reflexivity|].
  change (last (x :: y :: l) d) with (last (y :: l) d).
  now rewrite !IH.
Qed.

Lemma fold_loop_body (revs : list revision) :
  forall acc prev,
    fold_left loop_body revs (acc, prev)
    = (acc ++ deltas_from prev revs, last (map size_of revs) prev).
Proof.
  induction revs as [|rev rest IH]; intros acc prev.
  - simpl. now rewrite app_nil_r.
  - cbn [fold_left loop_body]. rewrite IH.
    rewrite <- app_assoc. cbn [app deltas_from delta_record fst snd map].
    fold (size_of rev). now rewrite last_cons.
Qed.

Lemma contribution_data_deltas_from (revs : list revision) :
  contribution_data revs = deltas_from 0 revs.
Proof.
  unfold contribution_data, revision_loop. now rewrite fold_loop_body.
Qed.

Lemma deltas_from_combine (revs : list revision) :
  forall prev,
    deltas_from prev revs
    = map delta_record (combine (prev :: map size_of revs) revs).
Proof.
  induction revs as [|rev rest IH]; intros prev; [reflexivity|].
  cbn [deltas_from map combine]. now rewrite IH.
Qed.

Lemma deltas_from_length (revs : list revision) :
  forall prev, List.length (deltas_from prev revs) = List.length revs.
Proof. induction revs; intros; simpl; auto. Qed.

Lemma deltas_from_sum (revs : list revision) :
  forall prev,
    sumZ (map change (deltas_from prev revs))
    = last (map size_of revs) prev - prev.
Proof.
  induction revs as [|rev rest IH]; intros prev.
  - simpl. lia.
  - cbn [deltas_from map sumZ fold_right delta_record change fst snd].
    fold (sumZ (map change (deltas_from (size_of rev) rest))).
    rewrite IH, last_cons. lia.
Qed.

Lemma sum_changes_final_size (revs : list revision) :
  sumZ (map change (contribution_data revs)) = final_size revs.
Proof.
  rewrite contribution_data_deltas_from, deltas_from_sum.
  unfold final_size. apply Z.sub_0_r.
Qed.

End DiffProcessorFacts.



(** ** Rounding to binary64 *)

Section RoundingFacts.

Lemma round_half_even_error (x : Q) :
  (Qabs (inject_Z (round_half_even x) - x) <= 1 # 2)%Q.
Proof.
  unfold round_half_even.
  pose proof (Qfloor_le x) as Hl. pose proof (Qlt_floor x) as Hu.
  rewrite inject_Z_plus in Hu. change (inject_Z 1) with 1%Q in Hu.
  apply Qabs_Qle_condition.
  destruct (Qcompare_spec (x - inject_Z (Qfloor x)) (1 # 2)) as [E|E|E].
  - destruct (Z.even (Qfloor x));
      [|rewrite inject_Z_plus; change (inject_Z 1) with 1%Q]; split; lra.
  - split; lra.
  - rewrite inject_Z_plus. change (inject_Z 1) with 1%Q. split; lra.
Qed.

Lemma round_half_even_nonneg (x : Q) :
  (0 <= x)%Q -> 0 <= round_half_even x.
Proof.
  intros Hx. unfold round_half_even.
  assert (Hf : 0 <= Qfloor x).
  { change 0 with (Qfloor 0). now apply Qfloor_resp_le. }
  destruct (Qcompare _ _); [destruct (Z.even _)| |]; lia.
Qed.

End RoundingFacts.

Section Pow2.

Lemma two_neq_0 : ~ (2 == 0)%Q.
Proof. discriminate. Qed.

Lemma pow2_pos (e : Z) : (0 < 2 ^ e)%Q.
Proof. apply Qpower_0_lt. reflexivity. Qed.

Lemma pow2_add (a b : Z) : (2 ^ (a + b) == 2 ^ a * 2 ^ b)%Q.
Proof. apply Qpower_plus, two_neq_0. Qed.

Lemma pow2_le (a b : Z) : a <= b -> (2 ^ a <= 2 ^ b)%Q.
Proof. intros H. apply Qpower_le_compat_l; [assumption|discriminate]. Qed.

Lemma pow2_lt_inv (a b : Z) : (2 ^ a < 2 ^ b)%Q -> a < b.
Proof. intros H. apply (Qpower_lt_compat_l_inv 2); [assumption|reflexivity]. Qed.

Lemma pow2_inject (n : Z) : 0 <= n -> (inject_Z (2 ^ n) == 2 ^ n)%Q.
Proof. intros H. now rewrite Zpower_Qpower. Qed.

End Pow2.

Lemma ilog2_spec (x : Q) :
  (0 < x)%Q -> (2 ^ ilog2 x <= x /\ x < 2 ^ (ilog2 x + 1))%Q.
Proof.
  intros Hx. unfold ilog2.
  destruct x as [n d]. cbn [Qnum Qden].
  assert (Hn : 0 < n) by (unfold Qlt in Hx; simpl in Hx; lia).
  set (a := Z.log2 n). set (b := Z.log2 (Z.pos d)).
  assert (Ha : 0 <= a) by apply Z.log2_nonneg.
  assert (Hb : 0 <= b) by apply Z.log2_nonneg.
  destruct (Z.log2_spec n Hn) as [Hn1 Hn2]. fold a in Hn1, Hn2.
  destruct (Z.log2_spec (Z.pos d) (Pos2Z.is_pos d)) as [Hd1 Hd2].
  fold b in Hd1, Hd2.
  (* x * d == n *)
  assert (Hxd : ((n # d) * inject_Z (Z.pos d) == inject_Z n)%Q).
  { unfold Qeq, Qmult, inject_Z. simpl. lia. }
  assert (Hdpos : (0 < inject_Z (Z.pos d))%Q) by reflexivity.
  assert (Hlow : (2 ^ (a - b - 1) <= n # d)%Q).
  { apply (Qmult_le_r _ _ (inject_Z (Z.pos d))); [assumption|].
    rewrite Hxd.
    apply Qle_trans with (2 ^ (a - b - 1) * 2 ^ (b + 1))%Q.
    - apply Qmult_le_l; [apply pow2_pos|].
      rewrite <- pow2_inject by lia. rewrite <- Zle_Qle. lia.
    - rewrite <- pow2_add. replace (a - b - 1 + (b + 1)) with a by lia.
      rewrite <- pow2_inject by lia. now rewrite <- Zle_Qle. }
  assert (Hhigh : (n # d < 2 ^ (a - b + 1))%Q).
  { apply (Qmult_lt_r _ _ (2 ^ b)%Q); [apply pow2_pos|].
    rewrite <- pow2_add. replace (a - b + 1 + b) with (a + 1) by lia.
    apply Qle_lt_trans with (inject_Z n).
    - rewrite <- Hxd. apply Qmult_le_l; [assumption|].
      rewrite <- pow2_inject by lia. now rewrite <- Zle_Qle.
    - rewrite <- pow2_inject by lia. now rewrite <- Zlt_Qlt. }
  destruct (Qle_bool (2 ^ (a - b)) (n # d)) eqn:E.
  - apply Qle_bool_iff in E. now split.
  - split.
    + exact Hlow.
    + replace (a - b - 1 + 1) with (a - b) by lia.
      apply Qnot_le_lt. intros H. apply Qle_bool_iff in H. congruence.
Qed.

Lemma Qabs_nonneg_eq (x : Q) : (0 <= x)%Q -> Qabs x = x.
Proof.
  destruct x as [n d]. unfold Qle, Qabs. simpl. intros H.
  f_equal. apply Z.abs_eq. lia.
Qed.

Lemma round_half_even_le (x : Q) (m : Z) :
  (x <= inject_Z m)%Q -> round_half_even x <= m.
Proof.
  intros H. unfold round_half_even.
  pose proof (Qfloor_le x) as Hl.
  assert (Hf : Qfloor x <= m).
  { rewrite Zle_Qle. now apply Qle_trans with x. }
  destruct (Z.eq_dec (Qfloor x) m) as [E|E].
  - assert (Hx : (x - inject_Z (Qfloor x) <= 0)%Q) by (rewrite E; lra).
    destruct (Qcompare_spec (x - inject_Z (Qfloor x)) (1 # 2)) as [H1|H1|H1];
      try lia; exfalso; lra.
  - destruct (Qcompare _ _); [destruct (Z.even _)| |]; lia.
Qed.

Lemma round_half_even_ge (x : Q) (m : Z) :
  (inject_Z m <= x)%Q -> m <= round_half_even x.
Proof.
  intros H. unfold round_half_even.
  assert (Hf : m <= Qfloor x).
  { rewrite <- (Qfloor_Z m). now apply Qfloor_resp_le. }
  destruct (Qcompare _ _); [destruct (Z.even _)| |]; lia.
Qed.

Lemma round_half_even_comp (x y : Q) :
  (x == y)%Q -> round_half_even x = round_half_even y.
Proof.
  intros E. unfold round_half_even. rewrite (Qfloor_comp _ _ E).
  assert (H : (x - inject_Z (Qfloor y) ?= 1 # 2)%Q
              = (y - inject_Z (Qfloor y) ?= 1 # 2)%Q).
  { apply Qcompare_comp; [now rewrite E|reflexivity]. }
  now rewrite H.
Qed.

Section Binary64.

Lemma binary64_zero (x : Q) : (x == 0)%Q -> (binary64 x == 0)%Q.
Proof.
  intros E. unfold binary64.
  set (u := (2 ^ _)%Q).
  assert (Hu : (0 < u)%Q) by apply pow2_pos.
  rewrite (round_half_even_comp _ 0).
  - change (round_half_even 0) with 0. ring.
  - rewrite E. unfold Qdiv. ring.
Qed.

Lemma binary64_nonneg (x : Q) : (0 <= x)%Q -> (0 <= binary64 x)%Q.
Proof.
  intros Hx. unfold binary64.
  set (u := (2 ^ _)%Q).
  assert (Hu : (0 < u)%Q) by apply pow2_pos.
  apply Qmult_le_0_compat; [|now apply Qlt_le_weak].
  change 0%Q with (inject_Z 0). rewrite <- Zle_Qle.
  apply round_half_even_ge. change (inject_Z 0) with 0%Q.
  apply Qle_shift_div_l; [assumption|]. lra.
Qed.

(** Absolute error: half a unit in the last place. *)
Lemma binary64_error (x : Q) :
  (0 < x)%Q ->
  (Qabs (binary64 x - x) <= 2 ^ (Z.max (ilog2 x) (-1022) - 53))%Q.
Proof.
  intros Hx. unfold binary64.
  rewrite (Qabs_nonneg_eq x) by now apply Qlt_le_weak.
  set (e := Z.max (ilog2 x) (-1022)).
  set (u := (2 ^ (e - 52))%Q).
  assert (Hu : (0 < u)%Q) by apply pow2_pos.
  pose proof (round_half_even_error (x / u)) as Hr.
  set (r := inject_Z (round_half_even (x / u))) in *.
  assert (Ehalf : (2 ^ (e - 53) == u * (1 # 2))%Q).
  { unfold u. replace (e - 53) with (e - 52 + -1) by lia.
    rewrite pow2_add. reflexivity. }
  rewrite Ehalf.
  assert (Ex : (x == x / u * u)%Q) by (field; lra).
  apply Qabs_Qle_condition in Hr. destruct Hr as [Hr1 Hr2].
  apply Qabs_Qle_condition.
  set (y := (x / u)%Q) in *. clearbody y r u. clear Ehalf.
  split; nra.
Qed.

(** Relative error in the normal range. *)
Lemma binary64_relative_error (x : Q) :
  (2 ^ (-1022) <= x)%Q ->
  (Qabs (binary64 x - x) <= x * (1 # 2 ^ 53))%Q.
Proof.
  intros Hx.
  assert (Hpos : (0 < x)%Q).
  { eapply Qlt_le_trans; [apply (pow2_pos (-1022))|exact Hx]. }
  destruct (ilog2_spec x Hpos) as [Hlo Hhi].
  assert (He : -1022 <= ilog2 x).
  { assert (H : -1022 < ilog2 x + 1); [|lia].
    apply pow2_lt_inv. eapply Qle_lt_trans; eassumption. }
  eapply Qle_trans; [apply binary64_error; assumption|].
  rewrite Z.max_l by assumption.
  replace (ilog2 x - 53) with (ilog2 x + -53) by lia.
  rewrite pow2_add. change (2 ^ (-53))%Q with (1 # 2 ^ 53)%Q.
  apply Qmult_le_compat_r; [assumption|discriminate].
Qed.

Lemma ilog2_mono (x y : Q) :
  (0 < x)%Q -> (x <= y)%Q -> ilog2 x <= ilog2 y.
Proof.
  intros Hx Hxy.
  assert (Hy : (0 < y)%Q) by (eapply Qlt_le_trans; eassumption).
  destruct (ilog2_spec x Hx) as [Hlo _].
  destruct (ilog2_spec y Hy) as [_ Hhi].
  assert (H : ilog2 x < ilog2 y + 1); [|lia].
  apply pow2_lt_inv.
  eapply Qle_lt_trans; [exact Hlo|].
  eapply Qle_lt_trans; eassumption.
Qed.

(** Rounding never crosses a representable number. *)
Lemma binary64_le_bound (x b : Q) :
  (0 < x)%Q -> (x <= b)%Q -> representable b -> (binary64 x <= b)%Q.
Proof.
  intros Hx Hxb [m Hm].
  assert (Hb : (0 < b)%Q) by (eapply Qlt_le_trans; eassumption).
  pose proof (ilog2_mono x b Hx Hxb) as Hmono.
  unfold binary64. rewrite (Qabs_nonneg_eq x) by now apply Qlt_le_weak.
  set (ex := Z.max (ilog2 x) (-1022)).
  set (eb := Z.max (ilog2 b) (-1022)) in *.
  set (u := (2 ^ (ex - 52))%Q).
  assert (Hu : (0 < u)%Q) by apply pow2_pos.
  destruct (Z.eq_dec ex eb) as [E|E].
  - rewrite Hm, <- E. fold u.
    apply Qmult_le_compat_r; [|now apply Qlt_le_weak].
    rewrite <- Zle_Qle. apply round_half_even_le.
    apply Qle_shift_div_r; [assumption|].
    rewrite Hm, <- E in Hxb. exact Hxb.
  - assert (Hlt : ex < eb) by lia.
    assert (Eb : eb = ilog2 b) by lia.
    destruct (ilog2_spec x Hx) as [_ Hhi].
    destruct (ilog2_spec b Hb) as [Hlo _].
    apply Qle_trans with (2 ^ (ex + 1))%Q.
    + replace (ex + 1) with (53 + (ex - 52)) by lia.
      rewrite pow2_add. fold u.
      apply Qmult_le_compat_r; [|now apply Qlt_le_weak].
      change (2 ^ 53)%Q with (inject_Z (2 ^ 53)).
      rewrite <- Zle_Qle. apply round_half_even_le.
      apply Qle_shift_div_r; [assumption|].
      change (inject_Z (2 ^ 53)) with (2 ^ 53)%Q. unfold u.
      rewrite <- pow2_add. replace (53 + (ex - 52)) with (ex + 1) by lia.
      apply Qlt_le_weak. eapply Qlt_le_trans; [exact Hhi|].
      apply pow2_le. lia.
    + apply Qle_trans with (2 ^ ilog2 b)%Q; [|assumption].
      apply pow2_le. lia.
Qed.

Lemma representable_1 : representable 1.
Proof. exists (2 ^ 52). vm_compute. reflexivity. Qed.

Lemma representable_100 : representable 100.
Proof. exists (100 * 2 ^ 46). vm_compute. reflexivity. Qed.

Lemma binary64_unit (x : Q) : (0 <= x <= 1)%Q -> (0 <= binary64 x <= 1)%Q.
Proof.
  intros [Hlo Hhi]. split; [now apply binary64_nonneg|].
  destruct (Qlt_le_dec 0 x) as [Hpos|Hneg].
  - apply binary64_le_bound; [assumption|assumption|apply representable_1].
  - rewrite binary64_zero; [discriminate|]. now apply Qle_antisym.
Qed.

Lemma binary64_percent (x : Q) :
  (0 <= x <= 100)%Q -> (0 <= binary64 x <= 100)%Q.
Proof.
  intros [Hlo Hhi]. split; [now apply binary64_nonneg|].
  destruct (Qlt_le_dec 0 x) as [Hpos|Hneg].
  - apply binary64_le_bound; [assumption|assumption|apply representable_100].
  - rewrite binary64_zero; [discriminate|]. now apply Qle_antisym.
Qed.

Lemma finite_binary64_unit (x : Q) :
  (0 <= x <= 1)%Q -> finite_binary64 x = true.
Proof.
  intros [Hlo Hhi]. unfold finite_binary64.
  rewrite (Qabs_nonneg_eq x Hlo).
  destruct (Qle_bool (2 ^ 1024) x) eqn:E; [|reflexivity].
  apply Qle_bool_iff in E. exfalso.
  assert (H : (2 ^ 0 < 2 ^ 1024)%Q).
  { apply Qpower_lt_compat_l; reflexivity. }
  change (2 ^ 0)%Q with 1%Q in H.
  apply (Qlt_irrefl 1). eapply Qlt_le_trans; [exact H|].
  eapply Qle_trans; eassumption.
Qed.

End Binary64.

(** ** Properties of the per-author dict *)

Section DictFacts.
Import Aggregator.

Ltac case_eqb :=
  repeat match goal with
    | |- context [String.eqb ?a ?b] =>
        destruct (String.eqb_spec a b); subst; try congruence
    end.

Lemma contains_lookup (u : string) (m : stats_dict) :
  contains u m = match lookup u m with Some _ => true | None => false end.
Proof.
  induction m as [|[k s] m IH]; simpl; [reflexivity|]. now case_eqb.
Qed.

Lemma lookup_app (u : string) (m1 m2 : stats_dict) :
  lookup u (m1 ++ m2)
  = match lookup u m1 with Some s => Some s | None => lookup u m2 end.
Proof.
  induction m1 as [|[k s] m1 IH]; simpl; [reflexivity|]. now case_eqb.
Qed.

Lemma lookup_update_stats (u v : string) (f : stats -> stats) (m : stats_dict) :
  lookup u (update_stats v f m)
  = if String.eqb v u then option_map f (lookup u m) else lookup u m.
Proof.
  induction m as [|[k s] m IH]; simpl.
  - now destruct (String.eqb v u).
  - destruct (String.eqb_spec k v) as [->|Hkv]; simpl.
    + now case_eqb.
    + rewrite IH. now case_eqb.
Qed.

Lemma lookup_getitem_default (u v : string) (m : stats_dict) :
  lookup u (getitem_default v m)
  = if String.eqb v u then Some (stats_of u m) else lookup u m.
Proof.
  unfold getitem_default, stats_of. rewrite contains_lookup.
  destruct (String.eqb_spec v u) as [->|Hvu].
  - destruct (lookup u m) eqn:E; simpl; [assumption|].
    rewrite lookup_app, E. simpl. now rewrite String.eqb_refl.
  - destruct (lookup v m) eqn:E; [reflexivity|].
    rewrite lookup_app. destruct (lookup u m); [reflexivity|].
    simpl. now case_eqb.
Qed.

Lemma contains_getitem_default (u : string) (m : stats_dict) :
  contains u (getitem_default u m) = true.
Proof.
  rewrite contains_lookup, lookup_getitem_default.
  now rewrite String.eqb_refl.
Qed.

Lemma contains_update_stats (u v : string) (f : stats -> stats)
  (m : stats_dict) :
  contains u (update_stats v f m) = contains u m.
Proof.
  rewrite !contains_lookup, lookup_update_stats.
  destruct (String.eqb v u); [|reflexivity]. now destruct (lookup u m).
Qed.

Lemma update_stats_compose (u : string) (f g : stats -> stats)
  (m : stats_dict) :
  update_stats u g (update_stats u f m)
  = update_stats u (fun s => g (f s)) m.
Proof.
  induction m as [|[k s] m IH]; simpl; [reflexivity|].
  destruct (String.eqb k u) eqn:E; simpl; rewrite E; [reflexivity|].
  now rewrite IH.
Qed.

Lemma update_stats_ext (u : string) (f g : stats -> stats) (m : stats_dict) :
  (forall s, f s = g s) -> update_stats u f m = update_stats u g m.
Proof.
  intros Hfg. induction m as [|[k s] m IH]; simpl; [reflexivity|].
  now rewrite Hfg, IH.
Qed.

(** The three accesses of one iteration amount to one insertion of the
    key, when it is new, and one update of its record. *)
Lemma loop_body_update (m : stats_dict) (rev : contribution) :
  loop_body m rev
  = update_stats (user rev) (apply_change (change rev))
      (getitem_default (user rev) m).
Proof.
  unfold loop_body.
  set (u := user rev). set (c := change rev).
  assert (Hget : forall f,
             getitem_default u (update_stats u f (getitem_default u m))
             = update_stats u f (getitem_default u m)).
  { intros f. unfold getitem_default at 1.
    now rewrite contains_update_stats, contains_getitem_default. }
  rewrite Hget, !update_stats_compose.
  destruct (c >? 0) eqn:Hc; apply update_stats_ext; intros s;
    unfold apply_change, incr_edits, incr_text_added, incr_text_removed;
    simpl; now rewrite Hc.
Qed.

Lemma stats_of_loop_body (m : stats_dict) (rev : contribution) (u : string) :
  stats_of u (loop_body m rev)
  = if String.eqb (user rev) u
    then apply_change (change rev) (stats_of u m)
    else stats_of u m.
Proof.
  rewrite loop_body_update. unfold stats_of at 1.
  rewrite lookup_update_stats, lookup_getitem_default.
  destruct (String.eqb (user rev) u); reflexivity.
Qed.

(** After the loop, the record of an author holds the count of the
    author's records and the two sums over them. *)
Lemma stats_of_fold (u : string) (ds : list contribution) :
  forall m,
    edits (stats_of u (fold_left loop_body ds m))
    = edits (stats_of u m) + Z.of_nat (List.length (records_of u ds))
    /\ text_added (stats_of u (fold_left loop_body ds m))
       = text_added (stats_of u m)
         + sumZ (map (fun d => added_part (change d)) (records_of u ds))
    /\ text_removed (stats_of u (fold_left loop_body ds m))
       = text_removed (stats_of u m)
         + sumZ (map (fun d => removed_part (change d)) (records_of u ds)).
Proof.
  induction ds as [|d ds IH]; intros m.
  - simpl. repeat split; lia.
  - cbn [fold_left records_of filter].
    destruct (IH (loop_body m d)) as (He & Ha & Hr).
    fold (records_of u ds). rewrite He, Ha, Hr, stats_of_loop_body.
    destruct (String.eqb (user d) u).
    + cbn [map List.length]. rewrite !sumZ_cons.
      unfold apply_change, added_part, removed_part.
      cbn [edits text_added text_removed].
      destruct (change d >? 0); repeat split; lia.
    + repeat split; reflexivity.
Qed.

Lemma keys_update_stats (v : string) (f : stats -> stats) (m : stats_dict) :
  map fst (update_stats v f m) = map fst m.
Proof.
  induction m as [|[k s] m IH]; simpl; [reflexivity|].
  destruct (String.eqb k v); simpl; [reflexivity|]. now rewrite IH.
Qed.

Lemma sum_field_app (f : stats -> Z) (m1 m2 : stats_dict) :
  sum_field f (m1 ++ m2) = sum_field f m1 + sum_field f m2.
Proof. unfold sum_field. now rewrite map_app, sumZ_app. Qed.

Lemma sum_field_update_stats (f : stats -> Z) (v : string)
  (g : stats -> stats) (m : stats_dict) :
  sum_field f (update_stats v g m)
  = sum_field f m
    + match lookup v m with Some s => f (g s) - f s | None => 0 end.
Proof.
  unfold sum_field.
  induction m as [|[k s] m IH]; simpl; [reflexivity|].
  destruct (String.eqb k v); simpl; [lia|]. rewrite IH. lia.
Qed.

Lemma sum_field_getitem_default (f : stats -> Z) (v : string)
  (m : stats_dict) :
  f fresh_stats = 0 -> sum_field f (getitem_default v m) = sum_field f m.
Proof.
  intros Hf. unfold getitem_default.
  destruct (contains v m); [reflexivity|].
  rewrite sum_field_app. unfold sum_field at 2. simpl. lia.
Qed.

Lemma sum_field_loop_body (f : stats -> Z) (m : stats_dict)
  (rev : contribution) :
  f fresh_stats = 0 ->
  sum_field f (loop_body m rev)
  = sum_field f m
    + (f (apply_change (change rev) (stats_of (user rev) m))
       - f (stats_of (user rev) m)).
Proof.
  intros Hf. rewrite loop_body_update, sum_field_update_stats.
  rewrite sum_field_getitem_default by assumption.
  now rewrite lookup_getitem_default, String.eqb_refl.
Qed.

Lemma sum_field_fold (f : stats -> Z) (step : Z -> Z) :
  f fresh_stats = 0 ->
  (forall c s, f (apply_change c s) = f s + step c) ->
  forall ds m,
    sum_field f (fold_left loop_body ds m)
    = sum_field f m + sumZ (map (fun d => step (change d)) ds).
Proof.
  intros Hf Hstep. induction ds as [|d ds IH]; intros m; simpl.
  - lia.
  - rewrite IH, sum_field_loop_body, Hstep by assumption. lia.
Qed.

Lemma sumZ_const_one {A : Type} (l : list A) :
  sumZ (map (fun _ => 1) l) = Z.of_nat (List.length l).
Proof.
  induction l as [|x l IH]; [reflexivity|].
  cbn [map sumZ fold_right List.length]. fold (sumZ (map (fun _ : A => 1) l)).
  rewrite IH. lia.
Qed.

Lemma sum_edits_accumulate (ds : list contribution) :
  sum_field edits (accumulate ds) = Z.of_nat (List.length ds).
Proof.
  unfold accumulate.
  rewrite (sum_field_fold edits (fun _ => 1)); [|reflexivity|reflexivity].
  now rewrite sumZ_const_one.
Qed.

Lemma sum_added_accumulate (ds : list contribution) :
  sum_field text_added (accumulate ds)
  = sumZ (map (fun d => added_part (change d)) ds).
Proof.
  unfold accumulate.
  rewrite (sum_field_fold text_added added_part); [reflexivity|reflexivity|].
  intros c s. unfold apply_change, added_part. simpl.
  destruct (c >? 0); lia.
Qed.

Lemma sum_removed_accumulate (ds : list contribution) :
  sum_field text_removed (accumulate ds)
  = sumZ (map (fun d => removed_part (change d)) ds).
Proof.
  unfold accumulate.
  rewrite (sum_field_fold text_removed removed_part);
    [reflexivity|reflexivity|].
  intros c s. unfold apply_change, removed_part. simpl.
  destruct (c >? 0); lia.
Qed.

Lemma added_minus_removed (c : Z) : added_part c - removed_part c = c.
Proof.
  unfold added_part, removed_part.
  destruct (Z.gtb_spec c 0); lia.
Qed.

Lemma added_part_nonneg (c : Z) : 0 <= added_part c.
Proof. unfold added_part. destruct (Z.gtb_spec c 0); lia. Qed.

Lemma removed_part_nonneg (c : Z) : 0 <= removed_part c.
Proof. unfold removed_part. destruct (Z.gtb_spec c 0); lia. Qed.

Lemma py_sum_sumZ (l : list Z) : py_sum l = sumZ l.
Proof.
  unfold py_sum.
  assert (H : forall a, fold_left Z.add l a = a + sumZ l).
  { induction l as [|x l IH]; intros a; simpl; [lia|]. rewrite IH. lia. }
  now rewrite H.
Qed.

Lemma total_text_added_sum (m : stats_dict) :
  total_text_added m = sum_field text_added m.
Proof. unfold total_text_added. apply py_sum_sumZ. Qed.

End DictFacts.

(** ** Invariants of the per-author dict *)

Section InvariantFacts.
Import Aggregator.

Lemma update_getitem_upsert (u : string) (f : stats -> stats) (m : stats_dict) :
  update_stats u f (getitem_default u m) = upsert u f m.
Proof.
  induction m as [|[k s] m IH].
  - unfold getitem_default. simpl. now rewrite String.eqb_refl.
  - unfold getitem_default in *. cbn [contains upsert].
    destruct (String.eqb k u) eqn:E.
    + cbn [update_stats]. now rewrite E.
    + rewrite <- IH. destruct (contains u m);
        cbn [app update_stats]; now rewrite E.
Qed.

Lemma loop_body_upsert (m : stats_dict) (rev : contribution) :
  loop_body m rev = upsert (user rev) (apply_change (change rev)) m.
Proof. rewrite loop_body_update. apply update_getitem_upsert. Qed.

Lemma upsert_Forall (P : stats -> Prop) (u : string) (f : stats -> stats)
  (m : stats_dict) :
  P (f fresh_stats) -> (forall s, P s -> P (f s)) ->
  Forall (fun kv => P (snd kv)) m ->
  Forall (fun kv => P (snd kv)) (upsert u f m).
Proof.
  intros Hfresh Hf. induction 1 as [|[k s] m Hs Hm IH]; simpl.
  - constructor; [exact Hfresh|constructor].
  - destruct (String.eqb k u).
    + constructor; [now apply Hf|exact Hm].
    + constructor; [exact Hs|exact IH].
Qed.

Lemma apply_change_sound (c : Z) (s : stats) :
  sound_stats s \/ s = fresh_stats -> sound_stats (apply_change c s).
Proof.
  unfold sound_stats, apply_change. cbn [edits text_added text_removed].
  intros [(He & Ha & Hr)| ->]; cbn [edits text_added text_removed fresh_stats];
    destruct (Z.gtb_spec c 0); lia.
Qed.

Lemma accumulate_sound (ds : list contribution) :
  Forall (fun kv => sound_stats (snd kv)) (accumulate ds).
Proof.
  unfold accumulate.
  assert (H : forall m, Forall (fun kv => sound_stats (snd kv)) m ->
                        Forall (fun kv => sound_stats (snd kv))
                          (fold_left loop_body ds m)).
  { induction ds as [|d ds IH]; intros m Hm; simpl; [assumption|].
    apply IH. rewrite loop_body_upsert. apply upsert_Forall.
    - apply apply_change_sound. now right.
    - intros s Hs. apply apply_change_sound. now left.
    - assumption. }
  apply H. constructor.
Qed.

Lemma sum_field_bound (f : stats -> Z) (m : stats_dict) (kv : string * stats) :
  Forall (fun kv => 0 <= f (snd kv)) m -> In kv m ->
  f (snd kv) <= sum_field f m.
Proof.
  unfold sum_field. induction 1 as [|kv' m Hkv Hm IH]; intros Hin.
  - destruct Hin.
  - cbn [map]. rewrite sumZ_cons. destruct Hin as [->|Hin].
    + assert (0 <= sumZ (map (fun kv => f (snd kv)) m)); [|lia].
      clear -Hm. induction Hm as [|x m Hx _ IHm]; [simpl; lia|].
      cbn [map]. rewrite sumZ_cons. lia.
    + specialize (IH Hin). lia.
Qed.

(** Every record adds a share of the total that is not negative. *)
Lemma accumulate_shares (ds : list contribution) :
  Forall (fun kv => 0 <= text_added (snd kv)
                    <= total_text_added (accumulate ds))
    (accumulate ds).
Proof.
  pose proof (accumulate_sound ds) as Hs.
  assert (Hnn : Forall (fun kv => 0 <= text_added (snd kv)) (accumulate ds)).
  { eapply Forall_impl; [|exact Hs]. intros kv H. apply H. }
  apply Forall_forall. intros kv Hkv. split.
  - rewrite Forall_forall in Hnn. now apply Hnn.
  - rewrite total_text_added_sum. now apply sum_field_bound.
Qed.

End InvariantFacts.

(** ** Properties of [list.sort] *)

Section BeforeFacts.
Context {A : Type}.

Lemma appears_before_nil (a b : A) : ~ appears_before [] a b.
Proof. intros (l1 & l2 & l3 & H). now destruct l1. Qed.

Lemma appears_before_cons (x a b : A) (l : list A) :
  appears_before (x :: l) a b <-> (x = a /\ In b l) \/ appears_before l a b.
Proof.
  split.
  - intros (l1 & l2 & l3 & H). destruct l1 as [|y l1]; simpl in H.
    + injection H as -> ->. left. split; [reflexivity|].
      apply in_or_app. right. now left.
    + injection H as -> ->. right. now exists l1, l2, l3.
  - intros [[-> Hb] | (l1 & l2 & l3 & ->)].
    + apply in_split in Hb as (l2 & l3 & ->). now exists [], l2, l3.
    + now exists (x :: l1), l2, l3.
Qed.

Lemma appears_before_rev (l : list A) (a b : A) :
  appears_before (rev l) a b -> appears_before l b a.
Proof.
  intros (l1 & l2 & l3 & H).
  apply (f_equal (@rev A)) in H. rewrite rev_involutive in H.
  exists (rev l3), (rev l2), (rev l1). rewrite H.
  rewrite rev_app_distr. simpl. rewrite rev_app_distr. simpl.
  now rewrite <- !app_assoc.
Qed.

Lemma appears_before_map {B : Type} (f : A -> B) (l : list A) (a b : A) :
  appears_before l a b -> appears_before (map f l) (f a) (f b).
Proof.
  intros (l1 & l2 & l3 & ->).
  exists (map f l1), (map f l2), (map f l3).
  rewrite map_app. simpl. now rewrite map_app.
Qed.

Lemma nth_error_appears_before (l : list A) (i j : nat) (a b : A) :
  (i < j)%nat -> nth_error l i = Some a -> nth_error l j = Some b ->
  appears_before l a b.
Proof.
  revert i j. induction l as [|x l IH]; intros i j Hij Ha Hb.
  - now destruct i.
  - apply appears_before_cons. destruct j as [|j]; [lia|]. simpl in Hb.
    destruct i as [|i]; simpl in Ha.
    + injection Ha as ->. left. split; [reflexivity|].
      eapply nth_error_In; eassumption.
    + right. apply (IH i j); [lia|assumption|assumption].
Qed.

Lemma StronglySorted_weaken (R R' : A -> A -> Prop) (l : list A) :
  (forall a b, R a b -> R' a b) -> StronglySorted R l -> StronglySorted R' l.
Proof.
  intros HR. induction 1 as [|x l _ IH Hx]; constructor; [assumption|].
  eapply Forall_impl; [|exact Hx]. intros b. apply HR.
Qed.

End BeforeFacts.

Section SortFacts.
Context {A K : Type}.
Variable lt : K -> K -> bool.
Variable key : A -> K.

Lemma insert_sorted_perm (x : A) (l : list A) :
  Permutation (insert_sorted lt key x l) (x :: l).
Proof.
  induction l as [|y l IH]; simpl; [apply Permutation_refl|].
  destruct (lt (key y) (key x)).
  - eapply Permutation_trans; [apply perm_skip, IH|apply perm_swap].
  - apply Permutation_refl.
Qed.

Lemma stable_sort_perm (l : list A) : Permutation (stable_sort lt key l) l.
Proof.
  induction l as [|x l IH]; simpl; [apply perm_nil|].
  eapply Permutation_trans; [apply insert_sorted_perm|].
  now apply perm_skip.
Qed.

Lemma list_sort_perm (reverse : bool) (l : list A) :
  Permutation (list_sort lt key reverse l) l.
Proof.
  unfold list_sort. destruct reverse; [|apply stable_sort_perm].
  eapply Permutation_trans; [apply Permutation_sym, Permutation_rev|].
  eapply Permutation_trans; [apply stable_sort_perm|].
  apply Permutation_sym, Permutation_rev.
Qed.

(** Stability: an element is only ever moved in front of elements with a
    strictly greater key. *)
Lemma insert_sorted_before (x a b : A) (l : list A) :
  appears_before (insert_sorted lt key x l) a b ->
  appears_before l a b
  \/ (a = x /\ In b l)
  \/ (b = x /\ lt (key a) (key x) = true).
Proof.
  induction l as [|y l IH]; simpl.
  - intros H. apply appears_before_cons in H as [[_ []]|H].
    now apply appears_before_nil in H.
  - destruct (lt (key y) (key x)) eqn:Hyx; intros H;
      apply appears_before_cons in H as [[<- Hb]|H].
    + apply (Permutation_in _ (insert_sorted_perm x l)) in Hb.
      destruct Hb as [<-|Hb]; [now right; right|].
      left. apply appears_before_cons. now left.
    + destruct (IH H) as [H'|[[-> Hb]|H']].
      * left. apply appears_before_cons. now right.
      * right. left. split; [reflexivity|now right].
      * now right; right.
    + right. left. now split.
    + now left.
Qed.

Lemma stable_sort_before (l : list A) (a b : A) :
  appears_before (stable_sort lt key l) a b ->
  lt (key a) (key b) = false ->
  appears_before l a b.
Proof.
  intros H Hab. induction l as [|x l IH]; simpl in H.
  - now apply appears_before_nil in H.
  - apply appears_before_cons.
    apply insert_sorted_before in H as [H|[[-> Hb]|[-> H]]].
    + right. now apply IH.
    + left. split; [reflexivity|].
      now apply (Permutation_in _ (stable_sort_perm l)).
    + congruence.
Qed.

(** With [reverse=True] elements with equal keys keep their order too. *)
Lemma list_sort_reverse_before (l : list A) (a b : A) :
  appears_before (list_sort lt key true l) a b ->
  lt (key b) (key a) = false ->
  appears_before l a b.
Proof.
  unfold list_sort. intros H Hba.
  apply appears_before_rev in H.
  apply stable_sort_before in H; [|assumption].
  now apply appears_before_rev.
Qed.

Hypothesis lt_asym : forall x y, lt x y = true -> lt y x = false.
Hypothesis le_trans :
  forall x y z, lt y x = false -> lt z y = false -> lt z x = false.

Lemma insert_sorted_sorted (x : A) (l : list A) :
  StronglySorted (key_le lt key) l -> StronglySorted (key_le lt key) (insert_sorted lt key x l).
Proof.
  induction l as [|y l IH]; simpl; intros Hl.
  - constructor; constructor.
  - apply StronglySorted_inv in Hl as [Hl Hy].
    destruct (lt (key y) (key x)) eqn:Hyx.
    + constructor; [now apply IH|].
      eapply Permutation_Forall;
        [apply Permutation_sym, insert_sorted_perm|].
      constructor; [|assumption]. now apply lt_asym.
    + constructor; [now constructor|].
      constructor; [assumption|].
      eapply Forall_impl; [|exact Hy]. intros z Hz.
      unfold key_le in *. now apply (le_trans _ (key y)).
Qed.

Lemma stable_sort_sorted (l : list A) :
  StronglySorted (key_le lt key) (stable_sort lt key l).
Proof.
  induction l as [|x l IH]; simpl; [constructor|].
  now apply insert_sorted_sorted.
Qed.

Lemma StronglySorted_snoc (R : A -> A -> Prop) (l : list A) (x : A) :
  StronglySorted R l -> Forall (fun y => R y x) l ->
  StronglySorted R (l ++ [x]).
Proof.
  induction l as [|y l IH]; simpl; intros Hl Hx.
  - constructor; constructor.
  - apply StronglySorted_inv in Hl as [Hl Hy].
    apply Forall_cons_iff in Hx as [Hyx Hx].
    constructor; [now apply IH|].
    apply Forall_app. split; [assumption|now constructor].
Qed.

Lemma StronglySorted_rev (R : A -> A -> Prop) (l : list A) :
  StronglySorted R l -> StronglySorted (fun a b => R b a) (rev l).
Proof.
  induction l as [|x l IH]; simpl; intros Hl; [constructor|].
  apply StronglySorted_inv in Hl as [Hl Hx].
  apply StronglySorted_snoc; [now apply IH|].
  apply Forall_rev. exact Hx.
Qed.

Lemma list_sort_reverse_sorted (l : list A) :
  StronglySorted (fun a b => lt (key a) (key b) = false)
    (list_sort lt key true l).
Proof.
  unfold list_sort.
  apply (StronglySorted_rev (key_le lt key)), stable_sort_sorted.
Qed.

End SortFacts.

(** ** Order of first appearance *)

Section IndexFacts.

Lemma index_of_app (u : string) (k r : list string) :
  index_of u (k ++ r)
  = if mem u k then index_of u k
    else (List.length k + index_of u r)%nat.
Proof.
  unfold mem. induction k as [|x k IH]; simpl; [reflexivity|].
  rewrite (String.eqb_sym u x).
  destruct (String.eqb x u); simpl; [reflexivity|].
  rewrite IH. now destruct (existsb (String.eqb u) k).
Qed.

Lemma index_of_mem (u : string) (k : list string) :
  mem u k = true -> (index_of u k < List.length k)%nat.
Proof.
  unfold mem. induction k as [|x k IH]; simpl; [discriminate|].
  rewrite (String.eqb_sym u x).
  destruct (String.eqb x u); simpl; [lia|]. intros H. apply IH in H. lia.
Qed.

Lemma mem_In (u : string) (k : list string) : mem u k = true <-> In u k.
Proof.
  unfold mem. rewrite existsb_exists. split.
  - intros (x & Hx & E). apply String.eqb_eq in E. now subst.
  - intros H. exists u. split; [assumption|apply String.eqb_refl].
Qed.

Lemma mem_false (u : string) (k : list string) :
  mem u k = false <-> ~ In u k.
Proof.
  rewrite <- mem_In. destruct (mem u k); split; congruence.
Qed.

(** In a list without duplicates, position follows first appearance. *)
Lemma appears_before_index (l : list string) (u v : string) :
  NoDup l -> appears_before l u v -> (index_of u l < index_of v l)%nat.
Proof.
  intros Hnd (l1 & l2 & l3 & ->).
  apply NoDup_remove in Hnd as [Hnd Hu].
  assert (Hu1 : mem u l1 = false).
  { apply mem_false. intros H. apply Hu, in_or_app. now left. }
  assert (Hvu : v <> u).
  { intros ->. apply Hu, in_or_app. right.
    apply in_or_app. right. now left. }
  assert (Hv1 : mem v l1 = false).
  { apply mem_false. intros H.
    apply NoDup_app_remove_r in Hnd as Hnd1.
    rewrite app_assoc in Hnd. apply NoDup_remove_2 in Hnd.
    apply Hnd, in_or_app. left. apply in_or_app. now left. }
  rewrite !index_of_app, Hu1, Hv1. simpl.
  rewrite String.eqb_refl.
  destruct (String.eqb_spec u v) as [E|_]; [congruence|]. lia.
Qed.

(** Repeating a name that is already there changes no relative order. *)
Lemma index_of_insert_seen (x u v : string) (k r : list string) :
  In x k ->
  (index_of u (k ++ r) < index_of v (k ++ r))%nat ->
  (index_of u (k ++ x :: r) < index_of v (k ++ x :: r))%nat.
Proof.
  intros Hx. rewrite !index_of_app. simpl.
  destruct (mem u k) eqn:Hu, (mem v k) eqn:Hv; try lia.
  - apply index_of_mem in Hu. lia.
  - apply index_of_mem in Hv. lia.
  - destruct (String.eqb_spec x u) as [->|_].
    { apply mem_In in Hx. congruence. }
    destruct (String.eqb_spec x v) as [->|_].
    { apply mem_In in Hx. congruence. }
    lia.
Qed.

End IndexFacts.

(** ** Properties of the Contribution Aggregator *)

Section AggregatorFacts.
Import Aggregator.

Lemma contains_mem (u : string) (m : stats_dict) :
  contains u m = mem u (map fst m).
Proof.
  unfold mem. induction m as [|[k s] m IH]; simpl; [reflexivity|].
  rewrite (String.eqb_sym u k). destruct (String.eqb k u); simpl; auto.
Qed.

Lemma keys_loop_body (m : stats_dict) (rev : contribution) :
  map fst (loop_body m rev)
  = if contains (user rev) m then map fst m else map fst m ++ [user rev].
Proof.
  rewrite loop_body_update, keys_update_stats. unfold getitem_default.
  destruct (contains (user rev) m); [reflexivity|].
  now rewrite map_app.
Qed.

Lemma keys_loop_body_NoDup (m : stats_dict) (rev : contribution) :
  NoDup (map fst m) -> NoDup (map fst (loop_body m rev)).
Proof.
  intros Hnd. rewrite keys_loop_body.
  destruct (contains (user rev) m) eqn:E; [assumption|].
  rewrite contains_mem in E. apply mem_false in E.
  apply NoDup_rev in Hnd. rewrite <- (rev_involutive (_ ++ _)).
  apply NoDup_rev. rewrite rev_app_distr. simpl.
  constructor; [|assumption]. now rewrite <- in_rev.
Qed.

(** The dict lists the authors in the order of their first record. *)
Lemma keys_fold_order (u v : string) (ds : list contribution) :
  forall m,
    NoDup (map fst m) ->
    appears_before (map fst (fold_left loop_body ds m)) u v ->
    (index_of u (map fst m ++ map user ds)
     < index_of v (map fst m ++ map user ds))%nat.
Proof.
  induction ds as [|d ds IH]; intros m Hnd H; simpl in *.
  - rewrite app_nil_r. now apply appears_before_index.
  - apply IH in H; [|now apply keys_loop_body_NoDup].
    rewrite keys_loop_body in H.
    destruct (contains (user d) m) eqn:E.
    + apply index_of_insert_seen; [|assumption].
      rewrite contains_mem in E. now apply mem_In.
    + now rewrite <- app_assoc in H.
Qed.

Lemma keys_accumulate_order (u v : string) (ds : list contribution) :
  appears_before (map fst (accumulate ds)) u v ->
  (index_of u (map user ds) < index_of v (map user ds))%nat.
Proof.
  intros H. apply (keys_fold_order u v ds []) in H; [assumption|constructor].
Qed.

(** The share of a part in a positive total lies between 0 and 1. *)
Lemma share_unit (a total : Z) :
  0 < total -> 0 <= a <= total ->
  (0 <= inject_Z a / inject_Z total <= 1)%Q.
Proof.
  intros Hpos [Hlo Hhi].
  assert (Ht : (0 < inject_Z total)%Q).
  { change 0%Q with (inject_Z 0). now rewrite <- Zlt_Qlt. }
  split.
  - apply Qle_shift_div_l; [assumption|]. rewrite Qmult_0_l.
    change 0%Q with (inject_Z 0). now rewrite <- Zle_Qle.
  - apply Qle_shift_div_r; [assumption|]. rewrite Qmult_1_l.
    now rewrite <- Zle_Qle.
Qed.

(** No division is attempted with a zero divisor, and the quotient of a
    part by the total is a float. *)
Lemma percentage_of_value (s : stats) (total : Z) :
  0 <= text_added s <= total ->
  percentage_of s total = Some (percentage_value s total).
Proof.
  intros Hs. unfold percentage_of, percentage_value, truediv.
  destruct (Z.gtb_spec total 0) as [Hpos|Hneg]; [|reflexivity].
  destruct (Z.eqb_spec total 0); [lia|].
  rewrite finite_binary64_unit; [reflexivity|].
  apply binary64_unit. now apply share_unit.
Qed.

Lemma process_items_rows (total : Z) (items : stats_dict) :
  Forall (fun kv => 0 <= text_added (snd kv) <= total) items ->
  forall acc,
    process_items items total acc = Some (acc ++ map (make_row total) items).
Proof.
  induction 1 as [|[u s] items Hs _ IH]; intros acc; simpl.
  - now rewrite app_nil_r.
  - rewrite (percentage_of_value s total Hs). simpl. rewrite IH.
    now rewrite <- app_assoc.
Qed.

(** The aggregator always returns, with these rows. *)
Lemma aggregate_user_stats_rows (ds : list contribution) :
  aggregate_user_stats ds
  = Some
      (if total_text_added (accumulate ds) =? 0 then []
       else list_sort float_lt percentage true
              (map (make_row (total_text_added (accumulate ds)))
                 (accumulate ds))).
Proof.
  unfold aggregate_user_stats.
  destruct (total_text_added (accumulate ds) =? 0); [reflexivity|].
  now rewrite process_items_rows by apply accumulate_shares.
Qed.

Lemma total_text_added_nonneg (ds : list contribution) :
  0 <= total_text_added (accumulate ds).
Proof.
  rewrite total_text_added_sum, sum_added_accumulate.
  induction ds as [|d ds IH]; simpl; [lia|].
  pose proof (added_part_nonneg (change d)). lia.
Qed.

Lemma accumulate_net_change (ds : list contribution) :
  sum_field text_added (accumulate ds) - sum_field text_removed (accumulate ds)
  = sumZ (map change ds).
Proof.
  rewrite sum_added_accumulate, sum_removed_accumulate.
  induction ds as [|d ds IH]; [reflexivity|].
  cbn [map]. rewrite !sumZ_cons.
  pose proof (added_minus_removed (change d)). lia.
Qed.

Lemma sumZ_perm (l1 l2 : list Z) : Permutation l1 l2 -> sumZ l1 = sumZ l2.
Proof. induction 1; simpl; lia. Qed.

Lemma sum_rows_sorted (f : stats -> Z) (total : Z) (m : stats_dict) :
  sum_rows f (list_sort float_lt percentage true (map (make_row total) m))
  = sum_field f m.
Proof.
  unfold sum_rows, sum_field.
  rewrite (sumZ_perm _ (map (fun r => f (row_stats r))
                          (map (make_row total) m))).
  - now rewrite map_map.
  - apply Permutation_map, list_sort_perm.
Qed.

End AggregatorFacts.

(** ** Arithmetic of the percentages *)

Section PercentageFacts.
Import Aggregator.

Lemma float_lt_false (x y : Q) : float_lt x y = false <-> (y <= x)%Q.
Proof.
  unfold float_lt. rewrite negb_false_iff. apply Qle_bool_iff.
Qed.

Lemma float_lt_true (x y : Q) : float_lt x y = true <-> (x < y)%Q.
Proof.
  unfold float_lt. rewrite negb_true_iff. split.
  - intros H. apply Qnot_le_lt. intros Hle.
    apply Qle_bool_iff in Hle. congruence.
  - intros H. destruct (Qle_bool y x) eqn:E; [|reflexivity].
    apply Qle_bool_iff in E. exfalso. exact (Qlt_not_le _ _ H E).
Qed.

Lemma float_lt_asym (x y : Q) : float_lt x y = true -> float_lt y x = false.
Proof.
  rewrite float_lt_true, float_lt_false. apply Qlt_le_weak.
Qed.

Lemma float_le_trans (x y z : Q) :
  float_lt y x = false -> float_lt z y = false -> float_lt z x = false.
Proof.
  rewrite !float_lt_false. intros Hxy Hyz. exact (Qle_trans _ _ _ Hxy Hyz).
Qed.

Lemma sumQ_perm (l1 l2 : list Q) :
  Permutation l1 l2 -> (sumQ l1 == sumQ l2)%Q.
Proof.
  induction 1 as [|x l1 l2 _ IH|x y l|l1 l2 l3 _ IH1 _ IH2]; simpl.
  - reflexivity.
  - now rewrite IH.
  - ring.
  - now rewrite IH1.
Qed.

(** The exact shares of the records sum to the share of their sum. *)
Lemma sumQ_exact_percentages (total : Z) (m : stats_dict) :
  (sumQ (map (fun kv => exact_percentage (snd kv) total) m)
   == inject_Z (sum_field text_added m) / inject_Z total * 100)%Q.
Proof.
  unfold exact_percentage, sum_field.
  induction m as [|[u s] m IH]; simpl.
  - unfold Qdiv. ring.
  - rewrite IH, inject_Z_plus. unfold Qdiv. ring.
Qed.

Lemma percent_of_whole (total : Z) :
  0 < total -> (inject_Z total / inject_Z total * 100 == 100)%Q.
Proof.
  intros Hpos. field. change 0%Q with (inject_Z 0).
  rewrite inject_Z_injective. lia.
Qed.

(** The percentage of a part of the total is a float between 0 and 100. *)
Lemma percentage_value_range (s : stats) (total : Z) :
  0 < total -> 0 <= text_added s <= total ->
  (0 <= percentage_value s total <= 100)%Q.
Proof.
  intros Hpos Hs. unfold percentage_value, float_mul.
  destruct (Z.gtb_spec total 0); [|lia].
  pose proof (binary64_unit _ (share_unit _ _ Hpos Hs)) as [Hlo Hhi].
  apply binary64_percent. change (inject_Z 100) with 100%Q.
  set (q := binary64 _) in *. clearbody q. split; lra.
Qed.

(** The two roundings of a percentage: the float is within a relative
    [2 ^ -51] of the exact share, for totals up to [2 ^ 1000]. *)
Lemma percentage_value_error (s : stats) (total : Z) :
  0 < total <= 2 ^ 1000 -> 0 <= text_added s ->
  (Qabs (percentage_value s total - exact_percentage s total)
   <= exact_percentage s total * (1 # 2251799813685248))%Q.
Proof.
  intros [Hpos Hmax] Hs. unfold percentage_value, exact_percentage, float_mul.
  destruct (Z.gtb_spec total 0); [|lia].
  change (inject_Z 100) with 100%Q.
  set (x := (inject_Z (text_added s) / inject_Z total)%Q).
  assert (Ht : (0 < inject_Z total)%Q).
  { change 0%Q with (inject_Z 0). now rewrite <- Zlt_Qlt. }
  destruct (Z.eq_dec (text_added s) 0) as [E0|Hne].
  - assert (Ex : (x == 0)%Q).
    { unfold x. rewrite E0. unfold Qdiv. ring. }
    assert (Eq : (binary64 x * 100 == 0)%Q).
    { rewrite (binary64_zero x Ex). ring. }
    rewrite (binary64_zero _ Eq), Ex. discriminate.
  - assert (Hx : (2 ^ (-1000) <= x)%Q).
    { apply Qle_shift_div_l; [assumption|].
      apply Qle_trans with (2 ^ (-1000) * 2 ^ 1000)%Q.
      - apply Qmult_le_l; [apply pow2_pos|].
        rewrite <- pow2_inject by lia. now rewrite <- Zle_Qle.
      - rewrite <- pow2_add. change (2 ^ (-1000 + 1000))%Q with (inject_Z 1).
        rewrite <- Zle_Qle. lia. }
    assert (Hp1 : (2 ^ (-1022) <= 2 ^ (-1000))%Q) by (apply pow2_le; lia).
    assert (Hp0 : (0 < 2 ^ (-1022))%Q) by apply pow2_pos.
    pose proof (binary64_relative_error x (Qle_trans _ _ _ Hp1 Hx)) as Hq.
    change (1 # 2 ^ 53)%Q with (1 # 9007199254740992)%Q in Hq.
    apply Qabs_Qle_condition in Hq. destruct Hq as [Hq1 Hq2].
    set (q := binary64 x) in *.
    assert (Hy : (2 ^ (-1022) <= q * 100)%Q).
    { set (P := (2 ^ (-1000))%Q) in *. set (P1 := (2 ^ (-1022))%Q) in *.
      clearbody q x P P1. lra. }
    pose proof (binary64_relative_error (q * 100) Hy) as Hp.
    change (1 # 2 ^ 53)%Q with (1 # 9007199254740992)%Q in Hp.
    apply Qabs_Qle_condition in Hp. destruct Hp as [Hp1' Hp2'].
    apply Qabs_Qle_condition.
    set (pv := binary64 (q * 100)) in *.
    set (P := (2 ^ (-1000))%Q) in *. set (P1 := (2 ^ (-1022))%Q) in *.
    clearbody pv q x P P1. split; lra.
Qed.

(** Relative errors add up to the same relative error of the sum. *)
Lemma sumQ_error {A : Type} (f g : A -> Q) (l : list A) :
  Forall (fun a => (Qabs (f a - g a) <= g a * (1 # 2251799813685248))%Q) l ->
  (Qabs (sumQ (map f l) - sumQ (map g l))
   <= sumQ (map g l) * (1 # 2251799813685248))%Q.
Proof.
  induction 1 as [|a l Ha _ IH]; [discriminate|].
  cbn [map sumQ fold_right].
  fold (sumQ (map f l)). fold (sumQ (map g l)).
  apply Qabs_Qle_condition in Ha. apply Qabs_Qle_condition in IH.
  destruct Ha as [Ha1 Ha2], IH as [IH1 IH2].
  apply Qabs_Qle_condition.
  set (F := sumQ (map f l)) in *. set (G := sumQ (map g l)) in *.
  set (fa := f a) in *. set (ga := g a) in *.
  clearbody F G fa ga. split; lra.
Qed.

(** The floats computed for the records of the dict sum to 100 within
    [100 * 2 ^ -51]. *)
Lemma percentages_sum_error (ds : list contribution) :
  0 < total_text_added (accumulate ds) <= 2 ^ 1000 ->
  (Qabs (sumQ (map (fun kv => percentage_value (snd kv)
                                (total_text_added (accumulate ds)))
                 (accumulate ds)) - 100)
   <= 100 * (1 # 2251799813685248))%Q.
Proof.
  intros Ht. set (total := total_text_added (accumulate ds)) in *.
  assert (He : (sumQ (map (fun kv => exact_percentage (snd kv) total)
                        (accumulate ds)) == 100)%Q).
  { rewrite sumQ_exact_percentages, <- total_text_added_sum. fold total.
    apply percent_of_whole. lia. }
  rewrite <- He at 1 2.
  apply (sumQ_error (fun kv => percentage_value (snd kv) total)
           (fun kv => exact_percentage (snd kv) total)).
  eapply Forall_impl; [|apply accumulate_shares].
  intros kv [Hlo _]. now apply percentage_value_error.
Qed.

End PercentageFacts.

(** ** Properties of the Report Renderer *)

Section EscapeFacts.

Lemma string_app_assoc (s1 s2 s3 : string) :
  (s1 ++ (s2 ++ s3) = (s1 ++ s2) ++ s3)%string.
Proof. induction s1 as [|a s1 IH]; simpl; [reflexivity|]. now rewrite IH. Qed.

Lemma string_app_nil_r (s : string) : (s ++ EmptyString)%string = s.
Proof. induction s as [|a s IH]; simpl; [reflexivity|]. now rewrite IH. Qed.

Lemma replace_char_app (c : ascii) (rep s1 s2 : string) :
  replace_char c rep (s1 ++ s2)
  = (replace_char c rep s1 ++ replace_char c rep s2)%string.
Proof.
  induction s1 as [|a s1 IH]; simpl; [reflexivity|].
  destruct (Ascii.eqb a c); rewrite IH; [|reflexivity].
  apply string_app_assoc.
Qed.

Lemma html_escape_app (s1 s2 : string) :
  html_escape (s1 ++ s2) = (html_escape s1 ++ html_escape s2)%string.
Proof. unfold html_escape. now rewrite !replace_char_app. Qed.

Lemma html_escape_char (a : ascii) :
  html_escape (String a EmptyString) = escape_char a.
Proof.
  unfold html_escape, escape_char.
  destruct (Ascii.eqb_spec a "&") as [->|H1]; [reflexivity|].
  destruct (Ascii.eqb_spec a "<") as [->|H2]; [reflexivity|].
  destruct (Ascii.eqb_spec a ">") as [->|H3]; [reflexivity|].
  destruct (Ascii.eqb_spec a quote_char) as [->|H4]; [reflexivity|].
  destruct (Ascii.eqb_spec a "'") as [->|H5]; [reflexivity|].
  apply Ascii.eqb_neq in H1, H2, H3, H4, H5.
  cbn [replace_char]. rewrite H1. cbn [replace_char]. rewrite H2.
  cbn [replace_char]. rewrite H3. cbn [replace_char]. rewrite H4.
  cbn [replace_char]. now rewrite H5.
Qed.

(** [html.escape] works character by character. *)
Lemma html_escape_cons (a : ascii) (s : string) :
  html_escape (String a s) = (escape_char a ++ html_escape s)%string.
Proof.
  change (String a s) with (String a EmptyString ++ s)%string.
  now rewrite html_escape_app, html_escape_char.
Qed.






Lemma concat_cons (x : string) (l : list string) :
  String.concat EmptyString (x :: l)
  = (x ++ String.concat EmptyString l)%string.
Proof.
  destruct l as [|y l]; simpl; [|reflexivity].
  symmetry. apply string_app_nil_r.
Qed.

End EscapeFacts.

Section RendererFacts.
Import Aggregator Renderer.

Lemma table_rows_fold (stats : list author_row) :
  forall acc,
    fold_left (fun acc user_data => (acc ++ table_row user_data)%string)
      stats acc
    = (acc ++ String.concat EmptyString (map table_row stats))%string.
Proof.
  induction stats as [|r stats IH]; intros acc.
  - simpl. symmetry. apply string_app_nil_r.
  - cbn [fold_left map]. rewrite IH, concat_cons.
    symmetry. apply string_app_assoc.
Qed.

Lemma table_rows_concat (stats : list author_row) :
  table_rows stats = String.concat EmptyString (map table_row stats).
Proof. unfold table_rows. now rewrite table_rows_fold. Qed.




End RendererFacts.

(** ** Number formatting *)

Section FormatFacts.

Lemma decimal_unfold (n : N) :
  decimal n = NilEmpty.string_of_uint (N.to_uint n).
Proof.
  unfold decimal, NilZero.string_of_uint.
  destruct (N.to_uint n) eqn:E; try reflexivity.
  exfalso. destruct n as [|p]; [discriminate|].
  exact (Unsigned.to_uint_nonnil p E).
Qed.

Lemma digits_value_decimal (n : N) : digits_value (decimal n) = Some n.
Proof.
  rewrite decimal_unfold. unfold digits_value.
  rewrite NilEmpty.usu. simpl. now rewrite DecimalN.Unsigned.of_to.
Qed.

Lemma split_point_digits (d : Decimal.uint) (frac : string) :
  split_point (NilEmpty.string_of_uint d ++ String "." frac)
  = Some (NilEmpty.string_of_uint d, frac).
Proof.
  induction d; cbn [NilEmpty.string_of_uint append split_point];
    try (rewrite IHd); reflexivity.
Qed.

Lemma split_point_decimal (n : N) (frac : string) :
  split_point (decimal n ++ String "." frac) = Some (decimal n, frac).
Proof. rewrite decimal_unfold. apply split_point_digits. Qed.

(** A numeral starts with a digit, not with a sign. *)
Lemma decimal_head (n : N) :
  exists c rest, decimal n = String c rest /\ Ascii.eqb c "-" = false.
Proof.
  rewrite decimal_unfold.
  assert (H : N.to_uint n <> Decimal.Nil).
  { destruct n as [|p]; [discriminate|apply Unsigned.to_uint_nonnil]. }
  destruct (N.to_uint n); try congruence;
    cbn [NilEmpty.string_of_uint]; eexists; eexists; split; reflexivity.
Qed.

Lemma two_digits_value (m : Z) :
  0 <= m < 100 ->
  digits_value (two_digits m) = Some (Z.to_N m)
  /\ String.length (two_digits m) = 2%nat.
Proof.
  intros Hm.
  assert (H : exists k, (k < 100)%nat /\ m = Z.of_nat k).
  { exists (Z.to_nat m). split; lia. }
  destruct H as (k & Hk & ->). clear Hm.
  do 100 (destruct k as [|k]; [split; vm_compute; reflexivity|]).
  lia.
Qed.

Lemma unsigned_value_fixed2 (n : Z) :
  0 <= n ->
  exists v,
    unsigned_value
      (decimal (Z.to_N (n / 100)) ++ "." ++ two_digits (n mod 100))
    = Some v
    /\ (v == inject_Z n / 100)%Q.
Proof.
  intros Hn. unfold unsigned_value.
  change ("." ++ two_digits (n mod 100))%string
    with (String "." (two_digits (n mod 100))).
  rewrite split_point_decimal, digits_value_decimal.
  destruct (two_digits_value (n mod 100)) as [-> ->];
    [apply Z.mod_pos_bound; lia|].
  eexists. split; [reflexivity|].
  rewrite !Z2N.id by (try apply Z.div_pos; try apply Z.mod_pos_bound; lia).
  change (inject_Z (10 ^ Z.of_nat 2)) with 100%Q.
  rewrite (Z.div_mod n 100) at 3 by lia.
  rewrite inject_Z_plus, inject_Z_mult. change (inject_Z 100) with 100%Q.
  field.
Qed.

(** The text that [format_2f] prints reads back as the nearest hundredth:
    two digits after the point, at most 0.005 away from the number. *)
Lemma format_2f_value (x : Q) :
  exists whole frac v,
    split_point (format_2f x) = Some (whole, frac)
    /\ String.length frac = 2%nat
    /\ decimal_value (format_2f x) = Some v
    /\ (Qabs (v - x) <= 1 # 200)%Q.
Proof.
  unfold format_2f.
  set (n := round_half_even (Qabs x * inject_Z 100)).
  assert (Hn : 0 <= n).
  { apply round_half_even_nonneg.
    apply Qmult_le_0_compat; [apply Qabs_nonneg|discriminate]. }
  assert (Herr : (Qabs (inject_Z n * (1 # 100) - Qabs x) <= 1 # 200)%Q).
  { pose proof (round_half_even_error (Qabs x * inject_Z 100)) as H.
    fold n in H. change (inject_Z 100) with 100%Q in H. clearbody n.
    apply Qabs_Qle_condition in H. apply Qabs_Qle_condition.
    destruct H as [H1 H2]. split; lra. }
  destruct (unsigned_value_fixed2 n Hn) as (v & Hv & Ev).
  unfold Qdiv in Ev. change (/ 100)%Q with (1 # 100)%Q in Ev.
  destruct (two_digits_value (n mod 100)) as [_ Hlen];
    [apply Z.mod_pos_bound; lia|].
  change ("." ++ two_digits (n mod 100))%string
    with (String "." (two_digits (n mod 100))) in *.
  destruct (float_lt x 0) eqn:Hsign.
  - apply float_lt_true in Hsign.
    exists (String "-" (decimal (Z.to_N (n / 100)))),
      (two_digits (n mod 100)), (- v)%Q.
    cbn [append split_point decimal_value]. simpl Ascii.eqb.
    rewrite split_point_decimal, Hv. repeat split; try assumption.
    rewrite Ev. rewrite (Qabs_neg x) in Herr by lra.
    apply Qabs_Qle_condition in Herr. apply Qabs_Qle_condition.
    split; lra.
  - apply float_lt_false in Hsign.
    exists (decimal (Z.to_N (n / 100))), (two_digits (n mod 100)), v.
    cbn [append]. rewrite split_point_decimal.
    repeat split; try assumption.
    + destruct (decimal_head (Z.to_N (n / 100))) as (c & rest & E & Hc).
      unfold decimal_value. rewrite E in *. cbn [append].
      now rewrite Hc.
    + rewrite Ev. rewrite (Qabs_pos x) in Herr by assumption. exact Herr.
Qed.

End FormatFacts.

(** ** Occurrences of a text in the document *)

Section OccurrenceFacts.
Import Aggregator Renderer.

Lemma starts_with_app (p1 p2 s : string) :
  starts_with (p1 ++ p2) (p1 ++ s) = starts_with p2 s.
Proof.
  induction p1 as [|a p1 IH]; simpl; [reflexivity|].
  now rewrite Ascii.eqb_refl, IH.
Qed.

Lemma starts_with_nil (s : string) : starts_with EmptyString s = true.
Proof. now destruct s. Qed.

Lemma starts_with_self (p s : string) : starts_with p (p ++ s) = true.
Proof.
  rewrite <- (string_app_nil_r p) at 1.
  rewrite starts_with_app. apply starts_with_nil.
Qed.

Lemma starts_with_occurs (p s : string) :
  starts_with p s = true -> occurs_in p s = true.
Proof. intros H. destruct s; simpl in *; rewrite H; reflexivity. Qed.

Lemma occurs_in_skip (p a s : string) :
  occurs_in p s = true -> occurs_in p (a ++ s) = true.
Proof.
  intros H. induction a as [|c a IH]; simpl; [assumption|].
  rewrite IH. apply orb_true_r.
Qed.

Lemma starts_with_split (p s : string) :
  starts_with p s = true -> exists t, s = (p ++ t)%string.
Proof.
  revert s. induction p as [|a p IH]; intros s H; simpl in *.
  - now exists s.
  - destruct s as [|b s]; [discriminate|].
    apply andb_true_iff in H as [Hab Hs].
    apply Ascii.eqb_eq in Hab as ->.
    destruct (IH s Hs) as (t & ->). now exists t.
Qed.

Lemma ends_with_split (suffix s : string) :
  ends_with suffix s = true -> exists h, s = (h ++ suffix)%string.
Proof.
  induction s as [|a s IH]; cbn [ends_with]; intros H.
  - apply orb_true_iff in H as [H|H]; [|discriminate].
    apply String.eqb_eq in H as <-. now exists EmptyString.
  - apply orb_true_iff in H as [H|H].
    + apply String.eqb_eq in H as <-. now exists EmptyString.
    + destruct (IH H) as (h & ->). now exists (String a h).
Qed.

Lemma row_part_2_end : ends_with "width: " row_part_2 = true.
Proof. vm_compute. reflexivity. Qed.

Lemma row_part_3_start : starts_with "%;" row_part_3 = true.
Proof. vm_compute. reflexivity. Qed.

Lemma row_part_4_start : starts_with "%</td>" row_part_4 = true.
Proof. vm_compute. reflexivity. Qed.

(** The width of the indicator is the text of [format_2f]. *)
Lemma table_row_width (r : author_row) :
  occurs_in ("width: " ++ format_2f (percentage r) ++ "%;") (table_row r)
  = true.
Proof.
  unfold table_row. rewrite !concat_cons.
  destruct (ends_with_split _ _ row_part_2_end) as (h & ->).
  destruct (starts_with_split _ _ row_part_3_start) as (t & ->).
  do 4 apply occurs_in_skip.
  rewrite <- (string_app_assoc h). apply occurs_in_skip.
  apply starts_with_occurs.
  rewrite starts_with_app, starts_with_app.
  rewrite <- (string_app_assoc "%;"). apply starts_with_self.
Qed.

(** The numeric label is the same text. *)
Lemma table_row_label (r : author_row) :
  occurs_in (format_2f (percentage r) ++ "%</td>") (table_row r) = true.
Proof.
  unfold table_row. rewrite !concat_cons.
  destruct (starts_with_split _ _ row_part_4_start) as (t & ->).
  do 7 apply occurs_in_skip.
  apply starts_with_occurs.
  rewrite starts_with_app.
  rewrite <- (string_app_assoc "%</td>"). apply starts_with_self.
Qed.



End OccurrenceFacts.

(** ** The balance of added and removed text *)

Section BalanceFacts.
Import DiffProcessor Aggregator.

(** The same balance over the rows the aggregator returns, for histories
    whose sizes are not negative. *)
Lemma returned_rows_net_change (revs : list revision) :
  Forall (fun rev => 0 <= size_of rev) revs ->
  exists rows,
    aggregate_user_stats (contribution_data revs) = Some rows
    /\ sum_rows text_added rows - sum_rows text_removed rows
       = final_size revs.
Proof.
  intros Hsizes. rewrite aggregate_user_stats_rows.
  pose proof (accumulate_net_change (contribution_data revs)) as Hnet.
  rewrite sum_changes_final_size in Hnet.
  set (ds := contribution_data revs) in *.
  eexists. split; [reflexivity|].
  destruct (Z.eqb_spec (total_text_added (accumulate ds)) 0) as [E|_].
  - assert (Hfinal : 0 <= final_size revs).
    { unfold final_size. clear -Hsizes.
      induction Hsizes as [|rev revs Hrev _ IH]; simpl; [lia|].
      destruct (map size_of revs) eqn:Hm; [assumption|].
      simpl in IH. exact IH. }
    rewrite total_text_added_sum in E. rewrite E in Hnet.
    assert (Hrem : 0 <= sum_field text_removed (accumulate ds)).
    { rewrite sum_removed_accumulate. clear.
      induction ds as [|d ds IH]; [simpl; lia|].
      cbn [map]. rewrite sumZ_cons.
      pose proof (removed_part_nonneg (change d)). lia. }
    unfold sum_rows. simpl. lia.
  - now rewrite !sum_rows_sorted.
Qed.

End BalanceFacts.

(** ** Further properties of the per-author dict *)

Section UpsertFacts.
Import Aggregator.

Lemma keys_fold_NoDup (ds : list contribution) :
  forall m, NoDup (map fst m) -> NoDup (map fst (fold_left loop_body ds m)).
Proof.
  induction ds as [|d ds IH]; intros m Hnd; simpl; [assumption|].
  now apply IH, keys_loop_body_NoDup.
Qed.

Lemma keys_fold_In (v : string) (ds : list contribution) :
  forall m,
    In v (map fst (fold_left loop_body ds m))
    <-> In v (map fst m) \/ In v (map user ds).
Proof.
  induction ds as [|d ds IH]; intros m; simpl.
  - tauto.
  - rewrite IH, keys_loop_body.
    destruct (contains (user d) m) eqn:E.
    + rewrite contains_mem in E. apply mem_In in E.
      split; [tauto|]. intros [H|[<-|H]]; auto.
    + rewrite in_app_iff. simpl. tauto.
Qed.

Lemma keys_accumulate_NoDup (ds : list contribution) :
  NoDup (map fst (accumulate ds)).
Proof. apply keys_fold_NoDup. constructor. Qed.

Lemma keys_accumulate_In (v : string) (ds : list contribution) :
  In v (map fst (accumulate ds)) <-> In v (map user ds).
Proof. unfold accumulate. rewrite keys_fold_In. simpl. tauto. Qed.

Lemma sumZ_nonneg_zero (l : list Z) :
  Forall (fun x => 0 <= x) l -> sumZ l = 0 -> Forall (fun x => x = 0) l.
Proof.
  induction 1 as [|x l Hx Hl IH]; intros Hsum; [constructor|].
  rewrite sumZ_cons in Hsum.
  assert (0 <= sumZ l).
  { clear -Hl. induction Hl as [|y l Hy _ IHl]; [simpl; lia|].
    rewrite sumZ_cons. lia. }
  constructor; [lia|]. apply IH. lia.
Qed.

(** No text is added exactly when no change is strictly positive. *)
Lemma total_zero_iff (ds : list contribution) :
  total_text_added (accumulate ds) = 0
  <-> Forall (fun d => change d <= 0) ds.
Proof.
  rewrite total_text_added_sum, sum_added_accumulate. split.
  - intros H. apply sumZ_nonneg_zero in H.
    + apply Forall_forall. intros d Hd.
      rewrite Forall_forall in H.
      specialize (H (added_part (change d))
                    (in_map (fun d => added_part (change d)) ds d Hd)).
      unfold added_part in H. destruct (Z.gtb_spec (change d) 0); lia.
    + apply Forall_forall. intros x Hx.
      apply in_map_iff in Hx as (d & <- & _). apply added_part_nonneg.
  - induction 1 as [|d ds Hd _ IH]; [reflexivity|].
    cbn [map]. rewrite sumZ_cons, IH. unfold added_part.
    destruct (Z.gtb_spec (change d) 0); lia.
Qed.

(** The per-author totals do not depend on the order of the records. *)
Lemma records_of_perm (u : string) (g : contribution -> Z)
  (ds ds' : list contribution) :
  Permutation ds ds' ->
  List.length (records_of u ds) = List.length (records_of u ds')
  /\ sumZ (map g (records_of u ds)) = sumZ (map g (records_of u ds')).
Proof.
  unfold records_of.
  induction 1 as [|d l1 l2 _ IH|d1 d2 l|l1 l2 l3 _ IH1 _ IH2]; simpl.
  - split; reflexivity.
  - destruct IH as [IHl IHs].
    destruct (String.eqb (user d) u); cbn [map List.length];
      rewrite ?sumZ_cons; split; lia.
  - destruct (String.eqb (user d1) u), (String.eqb (user d2) u);
      cbn [map List.length]; rewrite ?sumZ_cons; split; lia.
  - destruct IH1, IH2. split; congruence.
Qed.

End UpsertFacts.

(** ** The float model on examples *)

Section FloatExamples.
Import Aggregator.

(** On the samples, [a / b * 100] as modelled here is the float that the
    IEEE 754 division and multiplication of the Standard Library give. *)
Lemma binary64_agrees_with_SpecFloat :
  Forall (fun ab =>
            option_map Qred (sf_value (sf_percentage (fst ab) (snd ab)))
            = Some (Qred (float_mul
                            (binary64 (inject_Z (Zpos (fst ab))
                                       / inject_Z (Zpos (snd ab))))
                            (inject_Z 100))))
    sample_shares.
Proof.
  unfold sample_shares.
  repeat (apply Forall_cons; [vm_compute; reflexivity|]). apply Forall_nil.
Qed.

(** 23 bytes of 160: the float lies just below 14.375 and prints as 14.37,
    where the exact share would print as 14.38. *)
Lemma rounding_shows_in_print :
  format_2f (percentage_value (mkStats 1 23 0) 160) = "14.37"
  /\ format_2f (exact_percentage (mkStats 1 23 0) 160) = "14.38".
Proof. split; vm_compute; reflexivity. Qed.

(** The two floats of the scenario sum to [100 - 2 ^ -46], not to 100. *)
Lemma scenario_percentages_sum :
  option_map (fun rows => Qred (sumQ (map percentage rows)))
    (aggregate_user_stats (DiffProcessor.contribution_data scenario_revisions))
  = Some (7036874417766399 # 70368744177664).
Proof. vm_compute. reflexivity. Qed.

(** Shares that differ by less than the floats resolve tie at 50.0: the
    rows keep the order of first appearance, the larger share last. *)
Lemma close_shares_tie :
  option_map (map (fun r => (row_user r, Qred (percentage r))))
    (aggregate_user_stats close_records)
  = Some [ ("X", 50%Q); ("Y", 50%Q) ].
Proof. vm_compute. reflexivity. Qed.

End FloatExamples.

(** * The claims of the specification *)

Section Claims.
Import DiffProcessor Aggregator.

(** C1.  For the revisions [A:100, B:150, A:120] the Diff Processor emits
    the records [(A,+100), (B,+50), (A,-30)], and the Contribution
    Aggregator returns A with 2 edits, 100 added, 30 removed and the
    percentage 100/150*100, then B with 1 edit, 50 added, 0 removed and the
    percentage 50/150*100, in this order; the percentages are the floats
    these two expressions evaluate to. *)
Theorem C1_concrete_scenario :
  contribution_data scenario_revisions
  = [ {| user := "A"; change := 100 |};
      {| user := "B"; change := 50 |};
      {| user := "A"; change := -30 |} ]
  /\ aggregate_user_stats (contribution_data scenario_revisions)
     = Some
         [ {| row_user := "A";
              percentage := float_mul (binary64 (100 / 150)) 100;
              row_stats :=
                {| edits := 2; text_added := 100; text_removed := 30 |} |};
           {| row_user := "B";
              percentage := float_mul (binary64 (50 / 150)) 100;
              row_stats :=
                {| edits := 1; text_added := 50; text_removed := 0 |} |} ].
Proof. split; vm_compute; reflexivity. Qed.

(** C2.  The Diff Processor returns as many records as there are
    revisions, in the same order; the record of a revision carries its
    author and its size minus the size before it, 0 before the first one;
    a revision without author yields "Unknown", a revision without size
    counts as size 0; an empty history yields no record. *)
Theorem C2_diff_processor (revs : list revision) :
  List.length (contribution_data revs) = List.length revs
  /\ contribution_data revs
     = map delta_record (combine (previous_sizes revs) revs)
  /\ (forall size, author_of (mkRevision None size) = "Unknown")
  /\ (forall author, size_of (mkRevision author None) = 0)
  /\ contribution_data [] = [].
Proof.
  rewrite contribution_data_deltas_from. repeat split.
  - apply deltas_from_length.
  - apply deltas_from_combine.
Qed.

(** C3.  Each delta record adds 1 to the edits of its author; a strictly
    positive change is added to the author's text_added, any other change,
    zero included, adds its absolute value to the author's text_removed;
    the records of the other authors are left as they are.  The aggregator
    applies this step to every record in turn, so that in the end an author
    has as many edits as records, the sum of the positive changes as
    text_added and the sum of the absolute values of the other changes as
    text_removed. *)
Theorem C3_record_accounting (m : stats_dict) (rev : contribution) :
  edits (stats_of (user rev) (loop_body m rev))
  = edits (stats_of (user rev) m) + 1
  /\ (if change rev >? 0
      then text_added (stats_of (user rev) (loop_body m rev))
           = text_added (stats_of (user rev) m) + change rev
           /\ text_removed (stats_of (user rev) (loop_body m rev))
              = text_removed (stats_of (user rev) m)
      else text_added (stats_of (user rev) (loop_body m rev))
           = text_added (stats_of (user rev) m)
           /\ text_removed (stats_of (user rev) (loop_body m rev))
              = text_removed (stats_of (user rev) m) + Z.abs (change rev))
  /\ (forall u,
        stats_of u (loop_body m rev)
        = if String.eqb (user rev) u
          then stats_of (user rev) (loop_body m rev)
          else stats_of u m)
  /\ (forall ds, accumulate (ds ++ [rev]) = loop_body (accumulate ds) rev)
  /\ (forall ds u,
        edits (stats_of u (accumulate ds))
        = Z.of_nat (List.length (records_of u ds))
        /\ text_added (stats_of u (accumulate ds))
           = sumZ (map (fun d => added_part (change d)) (records_of u ds))
        /\ text_removed (stats_of u (accumulate ds))
           = sumZ (map (fun d => removed_part (change d)) (records_of u ds))).
Proof.
  rewrite !stats_of_loop_body, String.eqb_refl. unfold apply_change.
  cbn [edits text_added text_removed].
  split; [reflexivity|]. split; [|split; [|split]].
  - destruct (change rev >? 0); split; reflexivity.
  - intros u. rewrite stats_of_loop_body.
    destruct (String.eqb_spec (user rev) u) as [<-|_]; reflexivity.
  - intros ds. unfold accumulate. now rewrite fold_left_app.
  - intros ds u. exact (stats_of_fold u ds []).
Qed.

(** C4.  When the total text added over all authors is exactly 0, the
    aggregator returns the empty list; it returns normally, no division
    by zero is raised. *)
Theorem C4_no_content_added (ds : list contribution) :
  total_text_added (accumulate ds) = 0 ->
  aggregate_user_stats ds = Some [].
Proof.
  intros H. rewrite aggregate_user_stats_rows, H. reflexivity.
Qed.

Lemma C4_no_content_added_witness :
  total_text_added (accumulate shrinking_records) = 0
  /\ aggregate_user_stats shrinking_records = Some [].
Proof.
  split; [reflexivity|].
  apply (C4_no_content_added shrinking_records). reflexivity.
Defined.

(** C5, as the code has it.  For every revision sequence whose total text
    added is greater than 0, the sum of edits over the returned Author
    Statistics equals the number of input revisions. *)
Theorem C5_edits_sum (revs : list revision) :
  0 < total_text_added (accumulate (contribution_data revs)) ->
  exists rows,
    aggregate_user_stats (contribution_data revs) = Some rows
    /\ sum_rows edits rows = Z.of_nat (List.length revs).
Proof.
  intros Hpos. rewrite aggregate_user_stats_rows.
  destruct (Z.eqb_spec (total_text_added (accumulate (contribution_data revs))) 0)
    as [E|_]; [lia|].
  eexists. split; [reflexivity|].
  rewrite sum_rows_sorted, sum_edits_accumulate.
  rewrite contribution_data_deltas_from. now rewrite deltas_from_length.
Qed.

Lemma C5_edits_sum_witness :
  0 < total_text_added (accumulate (contribution_data scenario_revisions))
  /\ exists rows,
       aggregate_user_stats (contribution_data scenario_revisions) = Some rows
       /\ sum_rows edits rows = Z.of_nat (List.length scenario_revisions).
Proof.
  split; [reflexivity|].
  apply (C5_edits_sum scenario_revisions). reflexivity.
Defined.

(** C5 as stated fails: a history of two blank revisions has no text
    added, the aggregator returns no row, and the edits sum to 0, not 2. *)
Lemma C5_counterexample :
  aggregate_user_stats (contribution_data blank_history) = Some []
  /\ sum_rows edits [] <> Z.of_nat (List.length blank_history).
Proof. split; [reflexivity|discriminate]. Qed.

(** C6.  When the total text added is greater than 0, every returned
    percentage is the author's text_added divided by the total text added,
    times 100, as floating point computes it.  Over exact rationals these
    shares sum to exactly 100.  In floating point every percentage is
    within a relative [2 ^ -51] of the exact share and the percentages sum
    to 100 within [1e-12]; this part is shown for totals up to [2 ^ 1000],
    below which no quotient underflows. *)
Theorem C6_percentages_sum (ds : list contribution) :
  0 < total_text_added (accumulate ds) ->
  exists rows,
    aggregate_user_stats ds = Some rows
    /\ sum_rows text_added rows = total_text_added (accumulate ds)
    /\ Forall (fun r =>
                 percentage r
                 = float_mul
                     (binary64
                        (inject_Z (text_added (row_stats r))
                         / inject_Z (total_text_added (accumulate ds))))
                     (inject_Z 100)) rows
    /\ (sumQ (map (fun r =>
                     exact_percentage (row_stats r)
                       (total_text_added (accumulate ds))) rows)
        == 100)%Q
    /\ (total_text_added (accumulate ds) <= 2 ^ 1000 ->
        Forall (fun r =>
                  (Qabs (percentage r
                         - exact_percentage (row_stats r)
                             (total_text_added (accumulate ds)))
                   <= exact_percentage (row_stats r)
                        (total_text_added (accumulate ds))
                      * (1 # 2251799813685248))%Q) rows
        /\ (Qabs (sumQ (map percentage rows) - 100)
            <= 1 # 1000000000000)%Q).
Proof.
  intros Hpos. rewrite aggregate_user_stats_rows.
  pose proof (percentages_sum_error ds) as Hsum.
  pose proof (accumulate_shares ds) as Hsh. rewrite Forall_forall in Hsh.
  set (total := total_text_added (accumulate ds)) in *.
  destruct (Z.eqb_spec total 0) as [E|_]; [lia|].
  assert (Hperm : Permutation
                    (list_sort float_lt percentage true
                       (map (make_row total) (accumulate ds)))
                    (map (make_row total) (accumulate ds)))
    by apply list_sort_perm.
  eexists. split; [reflexivity|]. split; [|split; [|split]].
  - rewrite sum_rows_sorted. symmetry. apply total_text_added_sum.
  - eapply Permutation_Forall; [apply Permutation_sym, Hperm|].
    apply Forall_forall. intros r Hr.
    apply in_map_iff in Hr as ([u s] & <- & Hin).
    cbn [make_row percentage row_stats fst snd].
    unfold percentage_value. destruct (Z.gtb_spec total 0); [|lia].
    reflexivity.
  - rewrite (sumQ_perm _ _ (Permutation_map _ Hperm)), map_map.
    cbn [make_row row_stats snd].
    rewrite sumQ_exact_percentages, <- total_text_added_sum. fold total.
    now apply percent_of_whole.
  - intros Hmax. split.
    + eapply Permutation_Forall; [apply Permutation_sym, Hperm|].
      apply Forall_forall. intros r Hr.
      apply in_map_iff in Hr as ([u s] & <- & Hin).
      cbn [make_row percentage row_stats fst snd].
      destruct (Hsh _ Hin) as [Hlo _].
      apply percentage_value_error; [split|]; assumption.
    + rewrite (sumQ_perm _ _ (Permutation_map _ Hperm)), map_map.
      cbn [make_row percentage].
      eapply Qle_trans; [apply Hsum; split; assumption|]. discriminate.
Qed.

Lemma C6_percentages_sum_witness :
  0 < total_text_added (accumulate (contribution_data scenario_revisions))
  /\ total_text_added (accumulate (contribution_data scenario_revisions))
     <= 2 ^ 1000
  /\ exists rows,
       aggregate_user_stats (contribution_data scenario_revisions) = Some rows
       /\ sum_rows text_added rows = 150
       /\ (sumQ (map (fun r => exact_percentage (row_stats r) 150) rows)
           == 100)%Q
       /\ (Qabs (sumQ (map percentage rows) - 100) <= 1 # 1000000000000)%Q.
Proof.
  assert (Hpos : 0 < total_text_added
                       (accumulate (contribution_data scenario_revisions)))
    by reflexivity.
  assert (Hmax : total_text_added
                   (accumulate (contribution_data scenario_revisions))
                 <= 2 ^ 1000).
  { apply Z.leb_le. vm_compute. reflexivity. }
  split; [exact Hpos|]. split; [exact Hmax|].
  destruct (C6_percentages_sum (contribution_data scenario_revisions) Hpos)
    as (rows & Hrows & Hadded & _ & Hexact & Hfloat).
  exists rows. split; [exact Hrows|]. split; [exact Hadded|].
  split; [exact Hexact|]. exact (proj2 (Hfloat Hmax)).
Defined.

(** C7.  The returned list is sorted by non-increasing percentage, and two
    authors with equal percentage stand in the order in which they first
    appear in the delta records: nothing but the percentage orders them. *)
Theorem C7_ranking (ds : list contribution) (rows : list author_row) :
  aggregate_user_stats ds = Some rows ->
  StronglySorted (fun a b => (percentage b <= percentage a)%Q) rows
  /\ forall i j a b,
       (i < j)%nat ->
       nth_error rows i = Some a ->
       nth_error rows j = Some b ->
       (percentage a == percentage b)%Q ->
       (index_of (row_user a) (map user ds)
        < index_of (row_user b) (map user ds))%nat.
Proof.
  rewrite aggregate_user_stats_rows. intros [= <-].
  destruct (total_text_added (accumulate ds) =? 0).
  { split; [constructor|]. intros i j a b _ Ha. now destruct i. }
  set (total := total_text_added (accumulate ds)).
  split.
  - eapply StronglySorted_weaken;
      [|apply list_sort_reverse_sorted;
        [exact float_lt_asym|exact float_le_trans]].
    intros a b H. now apply float_lt_false.
  - intros i j a b Hij Ha Hb Htie.
    pose proof (nth_error_appears_before _ _ _ _ _ Hij Ha Hb) as H.
    apply list_sort_reverse_before in H.
    + apply (appears_before_map row_user) in H.
      rewrite map_map in H. simpl in H.
      now apply keys_accumulate_order.
    + apply float_lt_false. rewrite Htie. apply Qle_refl.
Qed.

Lemma C7_ranking_witness :
  aggregate_user_stats tied_records
  = Some (map (make_row 200)
            [ ("C", mkStats 1 100 0); ("B", mkStats 1 50 0);
              ("A", mkStats 1 50 0) ])
  /\ (index_of "B" (map user tied_records)
      < index_of "A" (map user tied_records))%nat.
Proof.
  assert (H : aggregate_user_stats tied_records
              = Some (map (make_row 200)
                        [ ("C", mkStats 1 100 0); ("B", mkStats 1 50 0);
                          ("A", mkStats 1 50 0) ]))
    by (vm_compute; reflexivity).
  split; [exact H|].
  refine (proj2 (C7_ranking tied_records _ H) 1%nat 2%nat
            (make_row 200 ("B", mkStats 1 50 0))
            (make_row 200 ("A", mkStats 1 50 0)) _ eq_refl eq_refl _).
  - apply Nat.lt_succ_diag_r.
  - vm_compute. reflexivity.
Defined.


(** C9, as the code has it.  In every author row the width of the
    proportional indicator and the numeric label are the same text: the
    percentage formatted to two decimal places.  The width is therefore the
    hundredth nearest to the percentage, at most 0.005 away from it. *)
Theorem C9_percentage_cells (user_data : author_row) :
  occurs_in ("width: " ++ format_2f (percentage user_data) ++ "%;")
    (Renderer.table_row user_data) = true
  /\ occurs_in (format_2f (percentage user_data) ++ "%</td>")
       (Renderer.table_row user_data) = true
  /\ exists whole frac v,
       split_point (format_2f (percentage user_data)) = Some (whole, frac)
       /\ String.length frac = 2%nat
       /\ decimal_value (format_2f (percentage user_data)) = Some v
       /\ (Qabs (v - percentage user_data) <= 1 # 200)%Q.
Proof.
  split; [apply table_row_width|]. split; [apply table_row_label|].
  apply format_2f_value.
Qed.

(** C9 as stated fails: the percentage of author A in the scenario is
    the float 66.66666666666666, and the indicator of A's row is 66.67
    percent wide. *)
Lemma C9_counterexample :
  (percentage scenario_row_A == 2345624805922133 # 35184372088832)%Q
  /\ occurs_in "width: 66.67%;" (Renderer.table_row scenario_row_A) = true
  /\ decimal_value "66.67" = Some (6667 # 100)
  /\ ~ (6667 # 100 == percentage scenario_row_A)%Q.
Proof.
  split; [reflexivity|]. split; [vm_compute; reflexivity|].
  split; [vm_compute; reflexivity|].
  intros H. vm_compute in H. discriminate H.
Qed.

(** C10.  The changes emitted by the Diff Processor sum to the size of the
    last revision, a missing size counting as 0, and to 0 for the empty
    history; hence, over the statistics the aggregator accumulates, total
    text_added minus total text_removed is the final size of the document,
    and so it is over the rows it returns when no size is negative. *)
Theorem C10_net_change (revs : list revision) :
  sumZ (map change (contribution_data revs)) = final_size revs
  /\ final_size [] = 0
  /\ sum_field text_added (accumulate (contribution_data revs))
     - sum_field text_removed (accumulate (contribution_data revs))
     = final_size revs
  /\ (Forall (fun rev => 0 <= size_of rev) revs ->
      exists rows,
        aggregate_user_stats (contribution_data revs) = Some rows
        /\ sum_rows text_added rows - sum_rows text_removed rows
           = final_size revs).
Proof.
  split; [apply sum_changes_final_size|]. split; [reflexivity|].
  split; [|apply returned_rows_net_change].
  rewrite accumulate_net_change. apply sum_changes_final_size.
Qed.

Lemma C10_net_change_witness :
  Forall (fun rev => 0 <= size_of rev) scenario_revisions
  /\ sumZ (map change (contribution_data scenario_revisions)) = 120
  /\ exists rows,
       aggregate_user_stats (contribution_data scenario_revisions) = Some rows
       /\ sum_rows text_added rows - sum_rows text_removed rows
          = final_size scenario_revisions.
Proof.
  assert (H : Forall (fun rev => 0 <= size_of rev) scenario_revisions).
  { repeat constructor; discriminate. }
  split; [exact H|]. split; [reflexivity|].
  exact (proj2 (proj2 (proj2 (C10_net_change scenario_revisions))) H).
Defined.

End Claims.

(** * Further properties of the code *)

Section FurtherAggregator.
Import DiffProcessor Aggregator.

Lemma rows_of_items (ds : list contribution) (rows : list author_row) :
  aggregate_user_stats ds = Some rows ->
  forall r, In r rows ->
    0 < total_text_added (accumulate ds)
    /\ exists kv, In kv (accumulate ds)
                  /\ r = make_row (total_text_added (accumulate ds)) kv.
Proof.
  rewrite aggregate_user_stats_rows. intros H r Hr.
  apply (f_equal (fun o => dict_get o [])) in H. cbn [dict_get] in H.
  subst rows.
  pose proof (total_text_added_nonneg ds) as Hnn.
  destruct (Z.eqb_spec (total_text_added (accumulate ds)) 0) as [E|E];
    [destruct Hr|].
  split; [lia|].
  apply (Permutation_in _
           (list_sort_perm float_lt percentage true
              (map (make_row (total_text_added (accumulate ds)))
                 (accumulate ds)))) in Hr.
  apply in_map_iff in Hr as (kv & <- & Hkv). now exists kv.
Qed.

(** X1.  [aggregate_user_stats] returns on every input, without a
    [ZeroDivisionError]: the rows it returns are, up to order, the rows of
    the authors of the dict, or none when no text was added. *)
Theorem X1_aggregate_returns (ds : list contribution) :
  exists rows,
    aggregate_user_stats ds = Some rows
    /\ Permutation rows
         (if total_text_added (accumulate ds) =? 0 then []
          else map (make_row (total_text_added (accumulate ds)))
                 (accumulate ds)).
Proof.
  rewrite aggregate_user_stats_rows. eexists. split; [reflexivity|].
  destruct (total_text_added (accumulate ds) =? 0); [constructor|].
  apply list_sort_perm.
Qed.

(** X2.  The aggregator returns the empty list exactly when no record has
    a strictly positive change. *)
Theorem X2_empty_result (ds : list contribution) :
  aggregate_user_stats ds = Some []
  <-> Forall (fun d => change d <= 0) ds.
Proof.
  rewrite <- total_zero_iff, aggregate_user_stats_rows. split.
  - destruct (Z.eqb_spec (total_text_added (accumulate ds)) 0) as [E|E];
      [trivial|].
    intros [= H]. exfalso. apply E.
    pose proof (list_sort_perm float_lt percentage true
                  (map (make_row (total_text_added (accumulate ds)))
                     (accumulate ds))) as Hp.
    unfold list_sort in Hp. rewrite H in Hp. apply Permutation_nil in Hp.
    apply map_eq_nil in Hp. now rewrite Hp.
  - intros ->. reflexivity.
Qed.

(** X3.  When some text was added, every author of the records has
    exactly one row in the result, and the result has no other row. *)
Theorem X3_one_row_per_author (ds : list contribution) :
  0 < total_text_added (accumulate ds) ->
  exists rows,
    aggregate_user_stats ds = Some rows
    /\ NoDup (map row_user rows)
    /\ forall u, In u (map row_user rows) <-> In u (map user ds).
Proof.
  intros Hpos. rewrite aggregate_user_stats_rows.
  destruct (Z.eqb_spec (total_text_added (accumulate ds)) 0) as [E|_]; [lia|].
  eexists. split; [reflexivity|].
  assert (Hp : Permutation
                 (map row_user
                    (list_sort float_lt percentage true
                       (map (make_row (total_text_added (accumulate ds)))
                          (accumulate ds))))
                 (map fst (accumulate ds))).
  { eapply Permutation_trans; [apply Permutation_map, list_sort_perm|].
    rewrite map_map. apply Permutation_refl. }
  split.
  - eapply Permutation_NoDup; [apply Permutation_sym, Hp|].
    apply keys_accumulate_NoDup.
  - intros u. rewrite <- keys_accumulate_In. split; intros H.
    + exact (Permutation_in _ Hp H).
    + exact (Permutation_in _ (Permutation_sym Hp) H).
Qed.

Lemma X3_one_row_per_author_witness :
  0 < total_text_added (accumulate tied_records)
  /\ exists rows,
       aggregate_user_stats tied_records = Some rows
       /\ NoDup (map row_user rows)
       /\ forall u, In u (map row_user rows) <-> In u (map user tied_records).
Proof.
  split; [reflexivity|].
  apply (X3_one_row_per_author tied_records). reflexivity.
Defined.

(** X4.  Every returned row has at least one edit, no negative byte count,
    and a percentage between 0 and 100. *)
Theorem X4_row_ranges (ds : list contribution) (rows : list author_row) :
  aggregate_user_stats ds = Some rows ->
  Forall (fun r =>
            1 <= edits (row_stats r)
            /\ 0 <= text_added (row_stats r)
            /\ 0 <= text_removed (row_stats r)
            /\ (0 <= percentage r <= 100)%Q) rows.
Proof.
  intros Hrows. apply Forall_forall. intros r Hr.
  destruct (rows_of_items ds rows Hrows r Hr) as (Hpos & kv & Hkv & ->).
  pose proof (accumulate_sound ds) as Hs.
  assert (Hkvs : sound_stats (snd kv)).
  { rewrite Forall_forall in Hs. now apply Hs. }
  destruct Hkvs as (He & Ha & Hre). cbn [make_row row_stats percentage].
  split; [assumption|]. split; [assumption|]. split; [assumption|].
  apply percentage_value_range; [assumption|]. split; [assumption|].
  rewrite total_text_added_sum. apply sum_field_bound; [|assumption].
  eapply Forall_impl; [|exact Hs]. intros kv' H'. apply H'.
Qed.

Lemma X4_row_ranges_witness :
  aggregate_user_stats tied_records
  = Some (map (make_row 200)
            [ ("C", mkStats 1 100 0); ("B", mkStats 1 50 0);
              ("A", mkStats 1 50 0) ])
  /\ Forall (fun r =>
               1 <= edits (row_stats r)
               /\ 0 <= text_added (row_stats r)
               /\ 0 <= text_removed (row_stats r)
               /\ (0 <= percentage r <= 100)%Q)
       (map (make_row 200)
          [ ("C", mkStats 1 100 0); ("B", mkStats 1 50 0);
            ("A", mkStats 1 50 0) ]).
Proof.
  split; [reflexivity|].
  apply (X4_row_ranges tied_records). reflexivity.
Defined.

(** X6.  The per-author statistics do not depend on the order of the
    records: a permutation of the records leaves the edits, text_added and
    text_removed of every author unchanged. *)
Theorem X6_order_independent (ds ds' : list contribution) :
  Permutation ds ds' ->
  forall u, stats_of u (accumulate ds) = stats_of u (accumulate ds').
Proof.
  intros Hp u. unfold accumulate.
  destruct (stats_of_fold u ds []) as (He & Ha & Hr).
  destruct (stats_of_fold u ds' []) as (He' & Ha' & Hr').
  destruct (records_of_perm u (fun d => added_part (change d)) _ _ Hp)
    as [Hlen Hadd].
  destruct (records_of_perm u (fun d => removed_part (change d)) _ _ Hp)
    as [_ Hrem].
  rewrite Hlen in He. rewrite Hadd in Ha. rewrite Hrem in Hr.
  rewrite <- He' in He. rewrite <- Ha' in Ha. rewrite <- Hr' in Hr.
  destruct (stats_of u (fold_left loop_body ds [])),
    (stats_of u (fold_left loop_body ds' [])).
  cbn [edits text_added text_removed] in *. congruence.
Qed.

Lemma X6_order_independent_witness :
  Permutation tied_records tied_records_reordered
  /\ forall u,
       stats_of u (accumulate tied_records)
       = stats_of u (accumulate tied_records_reordered).
Proof.
  assert (H : Permutation tied_records tied_records_reordered).
  { unfold tied_records, tied_records_reordered.
    eapply perm_trans; [apply perm_skip, perm_swap|]. apply perm_swap. }
  split; [exact H|].
  exact (X6_order_independent tied_records tied_records_reordered H).
Defined.

(** X7.  The sizes of the revisions are recovered from the emitted changes
    by running sums from 0: the Diff Processor loses no information about
    the sizes. *)
Theorem X7_sizes_from_changes (revs : list revision) :
  running_sizes 0 (contribution_data revs) = map size_of revs.
Proof.
  rewrite contribution_data_deltas_from. generalize 0 as prev.
  induction revs as [|rev revs IH]; intros prev; [reflexivity|].
  cbn [deltas_from running_sizes delta_record change fst snd map].
  replace (prev + (size_of rev - prev)) with (size_of rev) by lia.
  now rewrite IH.
Qed.

End FurtherAggregator.

Section FurtherEscape.

Lemma string_length_app (s1 s2 : string) :
  String.length (s1 ++ s2) = (String.length s1 + String.length s2)%nat.
Proof. induction s1 as [|a s1 IH]; simpl; [reflexivity|]. now rewrite IH. Qed.

Lemma escape_char_cases (a : ascii) :
  (is_special a = true /\ (4 <= String.length (escape_char a))%nat)
  \/ (is_special a = false /\ escape_char a = String a EmptyString).
Proof.
  unfold escape_char, is_special. cbn [existsb].
  destruct (Ascii.eqb a "&"); [left; split; [reflexivity|simpl; lia]|].
  destruct (Ascii.eqb a "<"); [left; split; [reflexivity|simpl; lia]|].
  destruct (Ascii.eqb a ">"); [left; split; [reflexivity|simpl; lia]|].
  destruct (Ascii.eqb a quote_char);
    [left; split; [reflexivity|simpl; lia]|].
  destruct (Ascii.eqb a "'"); [left; split; [reflexivity|simpl; lia]|].
  right. split; reflexivity.
Qed.

Lemma unescape_escape_char (a : ascii) (t : string) :
  unescape_from 0 (escape_char a ++ t) = String a (unescape_from 0 t).
Proof.
  unfold escape_char.
  destruct (Ascii.eqb_spec a "&") as [->|H1]; [reflexivity|].
  destruct (Ascii.eqb_spec a "<") as [->|H2]; [reflexivity|].
  destruct (Ascii.eqb_spec a ">") as [->|H3]; [reflexivity|].
  destruct (Ascii.eqb_spec a quote_char) as [->|H4]; [reflexivity|].
  destruct (Ascii.eqb_spec a "'") as [->|H5]; [reflexivity|].
  apply Ascii.eqb_neq in H1. cbn [append unescape_from]. now rewrite H1.
Qed.

Lemma unescape_html_escape (s : string) : unescape (html_escape s) = s.
Proof.
  unfold unescape. induction s as [|a s IH]; [reflexivity|].
  now rewrite html_escape_cons, unescape_escape_char, IH.
Qed.

Lemma html_escape_length (s : string) :
  (String.length s <= String.length (html_escape s))%nat
  /\ (has_special s = true ->
      (String.length s < String.length (html_escape s))%nat).
Proof.
  induction s as [|a s [IHle IHlt]]; [split; [apply le_n|discriminate]|].
  rewrite html_escape_cons, string_length_app. cbn [String.length has_special].
  destruct (escape_char_cases a) as [[Ha Hlen]|[Ha ->]]; rewrite Ha.
  - split; [lia|]. intros _. lia.
  - cbn [String.length orb]. split; [lia|]. intros H. apply IHlt in H. lia.
Qed.

Lemma html_escape_plain (s : string) :
  has_special s = false -> html_escape s = s.
Proof.
  induction s as [|a s IH]; [reflexivity|]. cbn [has_special].
  intros H. apply orb_false_iff in H as [Ha Hs].
  rewrite html_escape_cons, (IH Hs).
  destruct (escape_char_cases a) as [[Ha' _]|[_ ->]]; [congruence|reflexivity].
Qed.

(** X8.  The five replacements of [html.escape], made one after the other,
    amount to one substitution per character: the outcome for a
    concatenation is the concatenation of the outcomes, each character is
    replaced by its own character reference or kept, and the ampersand of
    a reference that was introduced is not escaped again. *)
Theorem X8_escape_per_character (s1 s2 : string) (a : ascii) :
  html_escape (s1 ++ s2) = (html_escape s1 ++ html_escape s2)%string
  /\ html_escape (String a s1) = (escape_char a ++ html_escape s1)%string.
Proof. split; [apply html_escape_app|apply html_escape_cons]. Qed.

(** X9.  [html.escape] loses nothing: reading the five character
    references back gives the original text, so two different texts never
    have the same escaped form. *)
Theorem X9_escape_round_trip (s : string) :
  unescape (html_escape s) = s
  /\ forall s', html_escape s' = html_escape s -> s' = s.
Proof.
  split; [apply unescape_html_escape|].
  intros s' H. rewrite <- (unescape_html_escape s'), H.
  apply unescape_html_escape.
Qed.

(** X10.  [html.escape] leaves a text unchanged exactly when the text has
    none of the five characters [&], [<], [>], double and single quote;
    the escaped text is never shorter than the text. *)
Theorem X10_escape_plain_text (s : string) :
  (html_escape s = s <-> has_special s = false)
  /\ (String.length s <= String.length (html_escape s))%nat.
Proof.
  destruct (html_escape_length s) as [Hle Hlt]. split; [|exact Hle].
  split; [|apply html_escape_plain].
  intros H. destruct (has_special s); [|reflexivity].
  specialize (Hlt eq_refl). rewrite H in Hlt. lia.
Qed.

End FurtherEscape.

Section FurtherFormat.

Lemma is_digit_not_comma (a : ascii) :
  is_digit a = true -> Ascii.eqb a "," = false.
Proof.
  intros H. destruct (Ascii.eqb_spec a ",") as [->|_]; [|reflexivity].
  discriminate H.
Qed.

Lemma all_digits_uint (d : Decimal.uint) :
  all_digits (NilEmpty.string_of_uint d) = true.
Proof. induction d; cbn [NilEmpty.string_of_uint all_digits]; auto. Qed.

Lemma all_digits_decimal (n : N) : all_digits (decimal n) = true.
Proof. rewrite decimal_unfold. apply all_digits_uint. Qed.

Lemma add_commas_cons (c : ascii) (rest : string) :
  add_commas (String c rest)
  = String c
      (if (negb (String.length rest =? 0)
           && (String.length rest mod 3 =? 0))%nat
       then String "," (add_commas rest)
       else add_commas rest).
Proof.
  cbn [add_commas].
  now destruct (negb (String.length rest =? 0)
                && (String.length rest mod 3 =? 0))%nat.
Qed.

Lemma strip_add_commas (d : string) :
  all_digits d = true -> strip_commas (add_commas d) = d.
Proof.
  induction d as [|c rest IH]; [reflexivity|].
  cbn [all_digits]. intros H. apply andb_true_iff in H as [Hc Hrest].
  rewrite add_commas_cons. cbn [strip_commas].
  rewrite (is_digit_not_comma c Hc).
  destruct (negb (String.length rest =? 0)
            && (String.length rest mod 3 =? 0))%nat;
    cbn [strip_commas Ascii.eqb]; rewrite ?Ascii.eqb_refl; now rewrite IH.
Qed.

Lemma groups_add_commas (d : string) :
  all_digits d = true -> d <> EmptyString ->
  exists g0 gs,
    groups (add_commas d) = g0 :: gs
    /\ String.length g0 = S ((String.length d - 1) mod 3)
    /\ Forall (fun g => String.length g = 3%nat) gs.
Proof.
  induction d as [|c rest IH]; [congruence|].
  cbn [all_digits]. intros H _. apply andb_true_iff in H as [Hc Hrest].
  rewrite add_commas_cons. cbn [groups].
  rewrite (is_digit_not_comma c Hc).
  destruct rest as [|c' rest'].
  - exists (String c EmptyString), []. repeat split. constructor.
  - destruct (IH Hrest) as (g0 & gs & Hg & Hlen & Hgs); [discriminate|].
    set (rest := String c' rest') in *.
    assert (Hpos : (0 < String.length rest)%nat) by (subst rest; simpl; lia).
    cbn [String.length]. rewrite Nat.sub_succ, Nat.sub_0_r.
    destruct (Nat.eqb_spec (String.length rest) 0) as [E|_]; [lia|].
    cbn [negb andb].
    destruct (Nat.eqb_spec (String.length rest mod 3) 0) as [E|E].
    + cbn [groups]. rewrite Ascii.eqb_refl, Hg.
      exists (String c EmptyString), (g0 :: gs). repeat split.
      * cbn [String.length]. now rewrite E.
      * constructor; [|assumption]. rewrite Hlen.
        f_equal. clear -E Hpos.
        pose proof (Nat.div_mod_eq (String.length rest) 3).
        pose proof (Nat.div_mod_eq (String.length rest - 1) 3).
        pose proof (Nat.mod_upper_bound (String.length rest - 1) 3).
        lia.
    + rewrite Hg. exists (String c g0), gs. repeat split; [|assumption].
      cbn [String.length]. rewrite Hlen. f_equal. clear -E Hpos.
      pose proof (Nat.div_mod_eq (String.length rest) 3).
      pose proof (Nat.div_mod_eq (String.length rest - 1) 3).
      pose proof (Nat.mod_upper_bound (String.length rest - 1) 3).
      pose proof (Nat.mod_upper_bound (String.length rest) 3).
      lia.
Qed.

Lemma decimal_nonempty (n : N) : decimal n <> EmptyString.
Proof.
  destruct (decimal_head n) as (c & rest & E & _). rewrite E. discriminate.
Qed.

Lemma round_half_even_integer (y : Q) (k : Z) :
  (y == inject_Z k)%Q -> round_half_even y = k.
Proof.
  intros E. unfold round_half_even.
  assert (Hf : Qfloor y = k) by (rewrite E; apply Qfloor_Z).
  rewrite Hf.
  destruct (Qcompare_spec (y - inject_Z k) (1 # 2)) as [H|H|H];
    [exfalso|reflexivity|exfalso]; rewrite E in H; lra.
Qed.

(** What the text of [format_2f] reads back as. *)
Lemma format_2f_reads (x : Q) :
  exists v,
    decimal_value (format_2f x) = Some v
    /\ (v == (if float_lt x 0 then - 1 else 1)
             * inject_Z (round_half_even (Qabs x * inject_Z 100))
             * (1 # 100))%Q.
Proof.
  unfold format_2f.
  set (n := round_half_even (Qabs x * inject_Z 100)).
  assert (Hn : 0 <= n).
  { apply round_half_even_nonneg.
    apply Qmult_le_0_compat; [apply Qabs_nonneg|discriminate]. }
  destruct (unsigned_value_fixed2 n Hn) as (v & Hv & Ev).
  unfold Qdiv in Ev. change (/ 100)%Q with (1 # 100)%Q in Ev.
  change ("." ++ two_digits (n mod 100))%string
    with (String "." (two_digits (n mod 100))) in *.
  destruct (float_lt x 0).
  - exists (- v)%Q. cbn [append decimal_value]. simpl Ascii.eqb.
    rewrite Hv. split; [reflexivity|]. rewrite Ev. ring.
  - exists v. cbn [append]. split; [|rewrite Ev; ring].
    destruct (decimal_head (Z.to_N (n / 100))) as (c & rest & E & Hc).
    unfold decimal_value. rewrite E in *. cbn [append]. now rewrite Hc.
Qed.

(** X11.  The grouped numeral of [f"{n:,}"] reads back as [n] once the
    separators are dropped, for negative numbers too. *)
Theorem X11_grouped_round_trip (n : Z) :
  grouped_value (format_grouped n) = Some n.
Proof.
  unfold format_grouped.
  pose proof (strip_add_commas _ (all_digits_decimal (Z.abs_N n))) as Hs.
  destruct (Z.ltb_spec n 0) as [Hneg|Hpos].
  - cbn [append grouped_value]. simpl Ascii.eqb.
    rewrite Hs, digits_value_decimal. cbn [option_map].
    f_equal. rewrite N2Z.inj_abs_N. lia.
  - cbn [append].
    destruct (decimal_head (Z.abs_N n)) as (c & rest & E & Hc).
    unfold grouped_value. rewrite Hs. rewrite E, add_commas_cons, Hc.
    rewrite <- E, digits_value_decimal. cbn [option_map].
    f_equal. rewrite N2Z.inj_abs_N. lia.
Qed.

(** X12.  In the grouped numeral of a number that is not negative, the
    separators cut the digits into a first group of one to three digits
    followed by groups of exactly three. *)
Theorem X12_groups_of_three (n : Z) :
  0 <= n ->
  exists g0 gs,
    groups (format_grouped n) = g0 :: gs
    /\ (1 <= String.length g0 <= 3)%nat
    /\ Forall (fun g => String.length g = 3%nat) gs.
Proof.
  intros Hn. unfold format_grouped.
  destruct (Z.ltb_spec n 0) as [Hneg|_]; [lia|]. cbn [append].
  destruct (groups_add_commas (decimal (Z.abs_N n)))
    as (g0 & gs & Hg & Hlen & Hgs);
    [apply all_digits_decimal|apply decimal_nonempty|].
  exists g0, gs. split; [assumption|]. split; [|assumption].
  rewrite Hlen.
  pose proof (Nat.mod_upper_bound
                (String.length (decimal (Z.abs_N n)) - 1) 3).
  lia.
Qed.

Lemma X12_groups_of_three_witness :
  0 <= 1234567
  /\ exists g0 gs,
       groups (format_grouped 1234567) = g0 :: gs
       /\ (1 <= String.length g0 <= 3)%nat
       /\ Forall (fun g => String.length g = 3%nat) gs.
Proof.
  split; [discriminate|]. apply (X12_groups_of_three 1234567). discriminate.
Defined.

(** X13.  A number that is a whole number of hundredths is printed
    exactly by [f"{x:.2f}"]: the text reads back as the number itself. *)
Theorem X13_hundredths_exact (x : Q) (k : Z) :
  (x * 100 == inject_Z k)%Q ->
  exists v, decimal_value (format_2f x) = Some v /\ (v == x)%Q.
Proof.
  intros Hk. destruct (format_2f_reads x) as (v & Hv & Ev).
  exists v. split; [assumption|]. rewrite Ev. clear Hv Ev.
  change (inject_Z 100) with 100%Q.
  destruct (float_lt x 0) eqn:Hsign.
  - apply float_lt_true in Hsign.
    rewrite (round_half_even_integer _ (- k)).
    + rewrite inject_Z_opp, <- Hk. ring.
    + rewrite Qabs_neg by lra. rewrite inject_Z_opp, <- Hk. ring.
  - apply float_lt_false in Hsign.
    rewrite (round_half_even_integer _ k).
    + rewrite <- Hk. ring.
    + rewrite Qabs_pos by assumption. exact Hk.
Qed.

Lemma X13_hundredths_exact_witness :
  ((51 # 2) * 100 == inject_Z 2550)%Q
  /\ exists v, decimal_value (format_2f (51 # 2)) = Some v /\ (v == 51 # 2)%Q.
Proof.
  split; [reflexivity|].
  apply (X13_hundredths_exact (51 # 2) 2550). reflexivity.
Defined.

End FurtherFormat.

Section FurtherMain.
Import DiffProcessor Aggregator Renderer.

Lemma contribution_data_nonempty (revs : list revision) :
  revs <> [] -> contribution_data revs <> [].
Proof.
  intros Hrevs H. apply (f_equal (@List.length contribution)) in H.
  rewrite contribution_data_deltas_from, deltas_from_length in H.
  destruct revs; [congruence|discriminate].
Qed.

Lemma main_report (p : page) (fs : filesystem) :
  page_exists p = true -> page_revisions p <> [] ->
  main p fs
  = option_map (fun rows => create_html_report rows (page_name p) fs)
      (aggregate_user_stats (contribution_data (page_revisions p))).
Proof.
  intros Hex Hrevs. unfold main, get_revision_data. rewrite Hex. cbn [negb].
  pose proof (contribution_data_nonempty _ Hrevs) as Hne.
  destruct (contribution_data (page_revisions p)) as [|d ds]; [congruence|].
  now destruct (aggregate_user_stats (d :: ds)).
Qed.

(** X14.  The script writes no file when the page does not exist or has no
    revision: the working directory is left as it was. *)
Theorem X14_no_report_without_history (p : page) (fs : filesystem) :
  page_exists p = false \/ page_revisions p = [] ->
  main p fs = Some fs.
Proof.
  intros [H|H]; unfold main, get_revision_data.
  - now rewrite H.
  - rewrite H. now destruct (page_exists p).
Qed.

Lemma X14_no_report_without_history_witness :
  (page_exists missing_page = false \/ page_revisions missing_page = [])
  /\ main missing_page no_files = Some no_files.
Proof.
  split; [now left|].
  apply (X14_no_report_without_history missing_page no_files). now left.
Defined.

(** X15.  For a page that exists and has at least one revision, the script
    ends normally and writes, under the name "contribution_report.html",
    the document of the aggregated statistics titled with the name of the
    page; every other file is left untouched. *)
Theorem X15_report_written (p : page) (fs : filesystem) :
  page_exists p = true -> page_revisions p <> [] ->
  exists rows fs',
    aggregate_user_stats (contribution_data (page_revisions p)) = Some rows
    /\ main p fs = Some fs'
    /\ fs' "contribution_report.html"
       = Some (html_template rows (page_name p))
    /\ forall name,
         name <> "contribution_report.html" -> fs' name = fs name.
Proof.
  intros Hex Hrevs. rewrite (main_report p fs Hex Hrevs).
  rewrite aggregate_user_stats_rows. cbn [option_map].
  eexists. eexists. split; [reflexivity|]. split; [reflexivity|].
  unfold create_html_report, write_file, filename. split.
  - now rewrite String.eqb_refl.
  - intros name Hname.
    destruct (String.eqb_spec name "contribution_report.html");
      [contradiction|reflexivity].
Qed.

Lemma X15_report_written_witness :
  page_exists scenario_page = true
  /\ page_revisions scenario_page <> []
  /\ exists rows fs',
       aggregate_user_stats (contribution_data (page_revisions scenario_page))
       = Some rows
       /\ main scenario_page no_files = Some fs'
       /\ fs' "contribution_report.html"
          = Some (html_template rows (page_name scenario_page))
       /\ forall name,
            name <> "contribution_report.html" -> fs' name = no_files name.
Proof.
  split; [reflexivity|]. split; [discriminate|].
  apply (X15_report_written scenario_page no_files);
    [reflexivity|discriminate].
Defined.

(** X16.  For a page whose history never grows (no revision is larger
    than the one before it, the first not larger than 0), the script still
    writes a report: its table has no data row. *)
Theorem X16_report_without_rows (p : page) (fs : filesystem) :
  page_exists p = true -> page_revisions p <> [] ->
  Forall (fun d => change d <= 0) (contribution_data (page_revisions p)) ->
  main p fs = Some (create_html_report [] (page_name p) fs)
  /\ table_rows [] = EmptyString.
Proof.
  intros Hex Hrevs Hflat. split; [|reflexivity].
  rewrite (main_report p fs Hex Hrevs).
  apply total_zero_iff in Hflat.
  now rewrite aggregate_user_stats_rows, Hflat.
Qed.

Lemma X16_report_without_rows_witness :
  page_exists blank_page = true
  /\ page_revisions blank_page <> []
  /\ Forall (fun d => change d <= 0)
       (contribution_data (page_revisions blank_page))
  /\ main blank_page no_files
     = Some (create_html_report [] (page_name blank_page) no_files)
  /\ table_rows [] = EmptyString.
Proof.
  assert (H : Forall (fun d => change d <= 0)
                (contribution_data (page_revisions blank_page))).
  { repeat constructor; discriminate. }
  split; [reflexivity|]. split; [discriminate|]. split; [exact H|].
  apply (X16_report_without_rows blank_page no_files);
    [reflexivity|discriminate|exact H].
Defined.

End FurtherMain.

Section FurtherRenderer.
Import Aggregator Renderer.

Lemma row_part_4_end : ends_with ">" row_part_4 = true.
Proof. vm_compute. reflexivity. Qed.

Lemma row_part_5_start : starts_with "</td>" row_part_5 = true.
Proof. vm_compute. reflexivity. Qed.

Lemma row_part_6_start : starts_with "</td>" row_part_6 = true.
Proof. vm_compute. reflexivity. Qed.

Lemma row_part_7_start : starts_with "</td>" row_part_7 = true.
Proof. vm_compute. reflexivity. Qed.

Lemma occurs_in_middle (p a b : string) :
  occurs_in p (a ++ p ++ b) = true.
Proof. apply occurs_in_skip, starts_with_occurs, starts_with_self. Qed.

Lemma concat_app (l k : list string) :
  String.concat EmptyString (l ++ k)
  = (String.concat EmptyString l ++ String.concat EmptyString k)%string.
Proof.
  induction l as [|x l IH]; [reflexivity|].
  cbn [app]. rewrite !concat_cons, IH. apply string_app_assoc.
Qed.

(** X17.  The table body is the rows of the given statistics, one per
    element and in the order of the list; the loop that appends to
    [table_rows] distributes over concatenation of lists. *)
Theorem X17_rows_in_order (stats1 stats2 : list author_row) :
  table_rows (stats1 ++ stats2)
  = (table_rows stats1 ++ table_rows stats2)%string
  /\ table_rows stats1 = String.concat EmptyString (map table_row stats1)
  /\ Forall (fun r => occurs_in (table_row r) (table_rows stats1) = true)
       stats1.
Proof.
  split; [|split].
  - now rewrite !table_rows_concat, map_app, concat_app.
  - apply table_rows_concat.
  - apply Forall_forall. intros r Hr.
    apply in_split in Hr as (l1 & l2 & ->).
    rewrite table_rows_concat, map_app. cbn [map].
    rewrite concat_app, concat_cons. apply occurs_in_middle.
Qed.

(** X18.  Every row shows the author's edit count and byte counts as
    grouped numerals: the edits bare, the added bytes after a plus sign,
    the removed bytes after a minus sign, also when they are 0. *)
Theorem X18_row_numbers (user_data : author_row) :
  occurs_in (">" ++ format_grouped (edits (row_stats user_data)) ++ "</td>")
    (table_row user_data) = true
  /\ occurs_in
       ("+" ++ format_grouped (text_added (row_stats user_data)) ++ "</td>")
       (table_row user_data) = true
  /\ occurs_in
       ("-" ++ format_grouped (text_removed (row_stats user_data)) ++ "</td>")
       (table_row user_data) = true.
Proof.
  unfold table_row. rewrite !concat_cons.
  destruct (ends_with_split _ _ row_part_4_end) as (h4 & ->).
  destruct (starts_with_split _ _ row_part_5_start) as (t5 & ->).
  destruct (starts_with_split _ _ row_part_6_start) as (t6 & ->).
  destruct (starts_with_split _ _ row_part_7_start) as (t7 & ->).
  split; [|split].
  - do 8 apply occurs_in_skip.
    rewrite <- (string_app_assoc h4). apply occurs_in_skip.
    apply starts_with_occurs.
    rewrite starts_with_app, starts_with_app.
    rewrite <- (string_app_assoc "</td>"). apply starts_with_self.
  - do 11 apply occurs_in_skip. apply starts_with_occurs.
    rewrite <- (string_app_assoc "+").
    rewrite starts_with_app, starts_with_app.
    rewrite <- (string_app_assoc "</td>"). apply starts_with_self.
  - do 13 apply occurs_in_skip. apply starts_with_occurs.
    rewrite <- (string_app_assoc "-").
    rewrite starts_with_app, starts_with_app.
    rewrite <- (string_app_assoc "</td>"). apply starts_with_self.
Qed.

End FurtherRenderer.
